(** * Botfront server methods: slots, response templates, user role schema

    A shallow embedding of
      - imports/api/slots/slots.methods.js      (Module [SlotsMethods])
      - the response-template methods            (Module [TemplateMethods])
      - imports/api/user/user.schema.js          (Module [UserSchema])
    Meteor methods run against a document store and may throw; they are
    embedded as computations in a state-and-exception monad over a [world]
    holding both collections. *)

From Stdlib Require Import ZArith String Ascii List Bool Lia Sorted.
From stdpp Require Import base option list gmap strings pretty fin_maps.

Local Open Scope string_scope.
Local Open Scope list_scope.

(** ** JavaScript values, errors and the method monad *)

Module Js.

(** Field values of a stored document (scalars; [VUndefined] is what a
    property read yields when the property is absent). *)
Inductive value :=
  | VUndefined
  | VNull
  | VBool (b : bool)
  | VNum (n : Z)
  | VStr (s : string).

Global Instance value_eq_dec : EqDecision value.
Proof. solve_decision. Defined.

(** A plain object: own properties only. *)
Abbreviation doc := (gmap string value).

(** [o.k] *)
Definition get (o : doc) (k : string) : value := default VUndefined (o !! k).

(** ToBoolean *)
Definition truthy (v : value) : bool :=
  match v with
  | VUndefined | VNull => false
  | VBool b => b
  | VNum n => negb (n =? 0)%Z
  | VStr s => negb (String.eqb s "")
  end.

(** ToPropertyKey, as used by [obj[v]] *)
Definition to_key (v : value) : string :=
  match v with
  | VUndefined => "undefined"
  | VNull => "null"
  | VBool true => "true"
  | VBool false => "false"
  | VNum n => pretty n
  | VStr s => s
  end.

(** The first argument of [new Meteor.Error(error, reason)]: the sources
    use both numbers ([400]) and strings (['400'], ['template-collision']). *)
Inductive errcode :=
  | ENum (n : Z)
  | EStr (s : string).

(** Everything a method can throw. *)
Inductive exn :=
  | MeteorError (error : errcode) (reason : option string)
      (* new Meteor.Error(error, reason) *)
  | MeteorErrorOf (e : exn)
      (* new Meteor.Error(e), e a caught error object *)
  | DriverError (code : option Z)
      (* raised by the store driver; [e.code] *)
  | TypeError
      (* property access on undefined, destructuring of undefined *)
  | SyntaxError
      (* JSON.parse *)
  | JsError (message : string).
      (* new Error(message) *)

(** [e.code] *)
Definition code_of (e : exn) : option Z :=
  match e with
  | DriverError c => c
  | _ => None
  end.

(** A structured failure carries a code and a message. *)
Definition classified (e : exn) : bool :=
  match e with
  | MeteorError _ (Some _) => true
  | _ => false
  end.

Inductive result (A : Type) :=
  | Ok (a : A)
  | Throw (e : exn).
Global Arguments Ok {A} a.
Global Arguments Throw {A} e.

End Js.
Export Js.

(** ** The document store *)

Module Store.

(** A rendering fragment [{ content }] *)
Record fragment := Fragment { content : string }.

(** A localized value [{ lang, sequence }] *)
Record localized := Localized { lang : string; sequence : list fragment }.

(** A template [{ key, values, match: { nlu: [{ intent }, ...] } }];
    [intents] lists [match.nlu[i].intent]. *)
Record template := Template {
  key : string;
  values : list localized;
  intents : list string;
}.

(** The part of a project document the methods touch; the [_id] is the key
    of the [Projects] map. *)
Record project := Project {
  templates : list template;
  responsesUpdatedAt : option Z;
}.

(** The calls a method can issue against a collection. *)
Inductive store_call :=
  | SlotsInsert | SlotsUpdate | SlotsRemove | SlotsFind
  | ProjectsFindOne | ProjectsFind | ProjectsUpdate.

(** [faults] is the driver's behaviour for the calls to come: every store
    call takes the head of the schedule and fails with it when it is an
    error.  [oplog] records the calls issued, oldest first. *)
Record world := World {
  Slots : list doc;
  Projects : gmap string project;
  faults : list (option exn);
  oplog : list store_call;
}.

Definition M (A : Type) : Type := world → result A * world.

Global Instance M_ret : MRet M := λ A a w, (Ok a, w).
Global Instance M_bind : MBind M := λ A B f m w,
  match m w with
  | (Ok a, w') => f a w'
  | (Throw e, w') => (Throw e, w')
  end.

Definition throw {A} (e : exn) : M A := λ w, (Throw e, w).

(** [try { m } catch (e) { h(e) }] *)
Definition try_catch {A} (m : M A) (h : exn → M A) : M A := λ w,
  match m w with
  | (Ok a, w') => (Ok a, w')
  | (Throw e, w') => h e w'
  end.

Definition next_fault (fs : list (option exn)) : option exn := mjoin (head fs).

(** The world once call [c] has been issued: logged, one schedule entry
    consumed. *)
Definition issued (c : store_call) (w : world) : world :=
  World (Slots w) (Projects w) (tail (faults w)) (oplog w ++ [c]).

(** Issue a call; it fails if the schedule says so. *)
Definition call (c : store_call) : M unit := λ w,
  match next_fault (faults w) with
  | Some e => (Throw e, issued c w)
  | None => (Ok tt, issued c w)
  end.

Definition gets {A} (f : world → A) : M A := λ w, (Ok (f w), w).
Definition set_Slots (s : list doc) : M unit := λ w,
  (Ok tt, World s (Projects w) (faults w) (oplog w)).

(** The world with its projects replaced. *)
Definition with_Projects (p : gmap string project) (w : world) : world :=
  World (Slots w) p (faults w) (oplog w).
Definition set_Projects (p : gmap string project) : M unit := λ w,
  (Ok tt, with_Projects p w).

End Store.
Export Store.

(** ** imports/api/slots/slots.methods.js *)

Module SlotsMethods.

(** *** The [Slots] collection *)

Definition has_id (id : value) (d : doc) : bool :=
  bool_decide (d !! "_id" = Some id).

(** One selector field against a document: equality, and [null] also
    matches an absent field. *)
Definition field_matches (d : doc) (k : string) (v : value) : Prop :=
  match v with
  | VNull => d !! k = None ∨ d !! k = Some VNull
  | _ => d !! k = Some v
  end.

Global Instance field_matches_dec d k v : Decision (field_matches d k v).
Proof. destruct v; simpl; apply _. Defined.

(** A selector that mentions [_id] with a falsy value matches nothing. *)
Definition selects (sel d : doc) : bool :=
  match sel !! "_id" with
  | Some i => truthy i
  | None => true
  end && bool_decide (map_Forall (field_matches d) sel).

Fixpoint update_first (p : doc → bool) (f : doc → doc) (l : list doc)
  : list doc * nat :=
  match l with
  | [] => ([], 0%nat)
  | d :: r =>
      if p d then (f d :: r, 1%nat)
      else let '(r', n) := update_first p f r in (d :: r', n)
  end.

(** An identifier as [Random.id()] makes them: a string that is never
    empty. *)
Record random_id := RandomId { id_first : ascii; id_rest : string }.
Definition id_string (i : random_id) : string :=
  String (id_first i) (id_rest i).

(** The [_id] values the collection accepts from a caller: non-empty
    strings (ObjectIDs are no field values here). *)
Definition valid_id (v : value) : bool :=
  match v with
  | VStr s => negb (String.eqb s "")
  | _ => false
  end.

(** A document the collection accepts: no [_id], or an acceptable one. *)
Definition insertable (d : doc) : Prop :=
  match d !! "_id" with
  | Some v => valid_id v = true
  | None => True
  end.

(** The driver's insert: an [_id] already stored is its duplicate-key
    error, code 11000. *)
Definition store_insert (id : value) (d : doc) : M value :=
  call SlotsInsert;;
  docs ← gets Slots;
  if existsb (has_id id) docs then throw (DriverError (Some 11000%Z))
  else set_Slots (docs ++ [<["_id" := id]> d]);; mret id.

Section Collection.

(** The generator of identifiers: what it returns may differ from call to
    call, so it is read off the world at the call. *)
Variable Random_id : world → random_id.

(** [Slots.insert(doc)]: the [_id] of the stored document.  A document
    that has an [_id] field which is not a non-empty string is refused
    before the store is reached; a document without [_id] gets a generated
    one. *)
Definition Slots_insert (d : doc) : M value :=
  match d !! "_id" with
  | Some v =>
      if valid_id v then store_insert v d
      else throw (JsError
        "Meteor requires document _id fields to be non-empty strings or ObjectIDs")
  | None =>
      id ← gets (λ w, VStr (id_string (Random_id w)));
      store_insert id d
  end.

End Collection.

(** [Slots.update({ _id: id }, { $set: fields })]: the first document with
    that [_id] gets every field of [fields] written over it; the number of
    documents affected. *)
Definition Slots_update (id : value) (fields : doc) : M nat :=
  call SlotsUpdate;;
  docs ← gets Slots;
  if truthy id then
    let '(docs', n) := update_first (has_id id) (λ d, fields ∪ d) docs in
    set_Slots docs';; mret n
  else mret 0%nat.

(** [Slots.remove(selector)]: the number of documents removed. *)
Definition Slots_remove (sel : doc) : M nat :=
  call SlotsRemove;;
  docs ← gets Slots;
  let kept := filter (λ d, selects sel d = false) docs in
  set_Slots kept;; mret (length docs - length kept)%nat.

(** [Slots.find(selector).fetch()] *)
Definition Slots_find (sel : doc) : M (list doc) :=
  call SlotsFind;;
  docs ← gets Slots;
  mret (filter (λ d, selects sel d = true) docs).

(** *** The methods *)

Section Methods.

Variable Random_id : world → random_id.

(** [checkIfCan] of lib/scopes, the permission check, is a parameter: it
    returns normally or raises its own error, and
    [checkIfCan scopes projectId = Some e] stands for the raise. *)
Variable checkIfCan : list string → string → option exn.

(** [slotSchemas] of slots.schema, the registry from slot type to schema,
    is a parameter; [schema slot = Some e] stands for
    [schema.validate(slot, { check })] raising [e]. *)
Variable slotSchemas : string → option (doc → option exn).

Definition check_can (scopes : list string) (projectId : string) : M unit :=
  match checkIfCan scopes projectId with
  | Some e => throw e
  | None => mret tt
  end.

Definition validateSchema (slot : doc) : M unit :=
  if truthy (get slot "type") then
    match slotSchemas (to_key (get slot "type")) with
    | Some schema =>
        match schema slot with
        | Some e => throw e
        | None => mret tt
        end
    | None => throw TypeError
    end
  else throw (MeteorError (EStr "400") None).

Definition handleError {A} (e : exn) : M A :=
  if bool_decide (code_of e = Some 11000%Z)
  then throw (MeteorError (ENum 400) (Some "Slot already exists"))
  else throw (MeteorError (ENum 500) (Some "Server Error")).

(** [check(slot, Object)] and [check(projectId, String)] hold by typing. *)
Definition slots_insert (slot : doc) (projectId : string) : M value :=
  check_can ["stories:w"] projectId;;
  validateSchema slot;;
  try_catch (Slots_insert Random_id slot) handleError.

Definition slots_update (slot : doc) (projectId : string) : M nat :=
  check_can ["stories:w"] projectId;;
  validateSchema slot;;
  try_catch (Slots_update (get slot "_id") slot) handleError.

Definition slots_delete (slot : doc) (projectId : string) : M nat :=
  check_can ["stories:w"] projectId;;
  validateSchema slot;;
  Slots_remove slot.

Definition slots_getSlots (projectId : string) : M (list doc) :=
  Slots_find {[ "projectId" := VStr projectId ]}.

End Methods.

(** slots.update read as a replacement: after a successful update the
    stored slot with the [_id] of the argument has exactly the argument's
    fields. *)
Definition update_replaces_fields
    (checkIfCan : list string → string → option exn)
    (slotSchemas : string → option (doc → option exn)) : Prop :=
  ∀ slot pid w n w',
    validateSchema slotSchemas slot w = (Ok tt, w) →
    slots_update checkIfCan slotSchemas slot pid w = (Ok n, w') →
    ∀ d, d ∈ Slots w' → d !! "_id" = slot !! "_id" → d = slot.

(** The two errors handleError throws. *)
Definition E400 : exn := MeteorError (ENum 400) (Some "Slot already exists").
Definition E500 : exn := MeteorError (ENum 500) (Some "Server Error").

End SlotsMethods.

(** ** The response-template methods *)

Module TemplateMethods.

(** *** The [Projects] collection *)

Definition has_key (k : string) (t : template) : bool :=
  bool_decide (key t = k).

(** The selectors in use: [{ _id }] and [{ _id, 'templates.key': key }]. *)
Record selector := Selector {
  sel_id : string;
  sel_templates_key : option string;
}.

(** The update operators in use. *)
Inductive modifier :=
  | SetTemplate (item : template)
      (* $set: { 'templates.$': item } *)
  | SetResponsesUpdatedAt (t : Z)
      (* $set: { responsesUpdatedAt: t } *)
  | PullTemplates (keys : list string)
      (* $pull: { templates: { key: { $in: keys } } } *)
  | PushTemplates (items : list template)
      (* $push: { templates: { $each: items } } *)
  | PushValue (v : localized).
      (* $push: { 'templates.$.values': v } *)

(** Index of the first template with key [k]: what [$] stands for. *)
Fixpoint index_of (k : string) (ts : list template) : option nat :=
  match ts with
  | [] => None
  | t :: r => if has_key k t then Some 0%nat else S <$> index_of k r
  end.

(** [None]: the document does not match the selector.  [Some pos]: it
    does, and [pos] is the matched array position when the selector
    constrains ['templates.key']. *)
Definition sel_position (sel : selector) (p : project) : option (option nat) :=
  match sel_templates_key sel with
  | None => Some None
  | Some k =>
      match index_of k (templates p) with
      | Some i => Some (Some i)
      | None => None
      end
  end.

Definition push_value (v : localized) (t : template) : template :=
  Template (key t) (values t ++ [v]) (intents t).

Definition apply_modifier (pos : option nat) (p : project) (m : modifier)
  : project :=
  match m with
  | SetTemplate item =>
      match pos with
      | Some i => Project (<[i := item]> (templates p)) (responsesUpdatedAt p)
      | None => p
      end
  | SetResponsesUpdatedAt t => Project (templates p) (Some t)
  | PullTemplates keys =>
      Project (filter (λ t, key t ∉ keys) (templates p)) (responsesUpdatedAt p)
  | PushTemplates items =>
      Project (templates p ++ items) (responsesUpdatedAt p)
  | PushValue v =>
      match pos with
      | Some i =>
          Project (alter (push_value v) i (templates p)) (responsesUpdatedAt p)
      | None => p
      end
  end.

(** [Projects.update(selector, modifier)]: one document at most, all
    operators in one step; the number of documents affected. *)
Definition Projects_update (sel : selector) (mods : list modifier) : M nat :=
  call ProjectsUpdate;;
  ps ← gets Projects;
  match ps !! sel_id sel with
  | None => mret 0%nat
  | Some p =>
      match sel_position sel p with
      | None => mret 0%nat
      | Some pos =>
          set_Projects (<[sel_id sel := foldl (apply_modifier pos) p mods]> ps);;
          mret 1%nat
      end
  end.

(** A fetched project as the projection leaves it: [f_templates] is [None]
    when the projection drops the field. *)
Record fetched := Fetched { f_templates : option (list template) }.

(** Projection [{ templates: { $elemMatch: ... } }]: the first matching
    element alone, or no [templates] field. *)
Definition elemMatch (P : template → bool) (ts : list template)
  : option (list template) :=
  t ← List.find P ts; Some [t].

(** [Projects.findOne({ _id }, { fields: { templates: 1 } })] *)
Definition Projects_findOne (projectId : string) : M (option fetched) :=
  call ProjectsFindOne;;
  ps ← gets Projects;
  mret (p ← ps !! projectId; Some (Fetched (Some (templates p)))).

(** [Projects.findOne({ _id, templates: { $elemMatch: { key } } },
                      { fields: { templates: { $elemMatch: { key } } } })] *)
Definition Projects_findOne_key (projectId k : string) : M (option fetched) :=
  call ProjectsFindOne;;
  ps ← gets Projects;
  mret (p ← ps !! projectId;
        if existsb (has_key k) (templates p)
        then Some (Fetched (elemMatch (has_key k) (templates p)))
        else None).

(** [Projects.find({ _id }, { fields: { templates: { $elemMatch:
       { 'match.nlu.intent': intent } } } }).fetch()] *)
Definition Projects_find_intent (projectId intent : string) : M (list fetched) :=
  call ProjectsFind;;
  ps ← gets Projects;
  mret match ps !! projectId with
       | Some p =>
           [Fetched (elemMatch (λ t, bool_decide (intent ∈ intents t))
                               (templates p))]
       | None => []
       end.

(** lodash [intersectionBy(xs, ys, 'key')]: the elements of [xs], in order,
    whose key occurs in [ys], one per key. *)
Fixpoint intersection_go (seen : list string) (xs ys : list template)
  : list template :=
  match xs with
  | [] => []
  | x :: r =>
      if bool_decide (key x ∉ seen) && existsb (has_key (key x)) ys
      then x :: intersection_go (key x :: seen) r ys
      else intersection_go seen r ys
  end.

Definition intersectionBy_key (xs ys : list template) : list template :=
  intersection_go [] xs ys.

(** The first template with key [k] is [t]: the list splits around it. *)
Definition first_with_key (k : string) (ts pre : list template)
    (t : template) (post : list template) : Prop :=
  ts = pre ++ t :: post ∧ Forall (λ x, key x ≠ k) pre ∧ key t = k.

Definition has_lang (l : string) (t : template) : Prop :=
  l ∈ lang <$> values t.

Global Instance has_lang_dec l t : Decision (has_lang l t).
Proof. unfold has_lang. apply _. Defined.

(** *** getTemplateLanguages *)

Section Languages.

(** JavaScript's [a > b] on strings, which compares UTF-16 code units.  A
    string here is a sequence of bytes, so the comparison is a
    parameter. *)
Variable js_gt : string → string → bool.

(** lodash [sortBy(langs)]: a stable ascending sort; [x], which came
    first, goes before the first element it is not greater than. *)
Fixpoint insert_sorted (x : string) (l : list string) : list string :=
  match l with
  | [] => [x]
  | y :: r => if js_gt x y then y :: insert_sorted x r else x :: y :: r
  end.

Definition sortBy (l : list string) : list string := foldr insert_sorted [] l.

(** [if (langs.indexOf(v.lang) < 0) langs.push(v.lang)] *)
Definition push_lang (langs : list string) (v : localized) : list string :=
  if bool_decide (lang v ∈ langs) then langs else langs ++ [lang v].

Definition getTemplateLanguages (templates : list template) : list string :=
  sortBy (foldl (λ langs t, foldl push_lang langs (values t)) [] templates).

(** Not greater, and less, in terms of the comparison. *)
Definition js_le (a b : string) : Prop := js_gt a b = false.
Definition js_lt (a b : string) : Prop := js_gt b a = true.

(** What the comparison of strings is: a strict total order. *)
Definition strict_total : Prop :=
  (∀ a b, js_gt a b = true → js_gt b a = false)
  ∧ (∀ a b, a ≠ b → js_gt a b = true ∨ js_gt b a = true).

End Languages.

(** At most one template per key, at most one value per language. *)
Definition unique_keys (ts : list template) : Prop := NoDup (key <$> ts).
Definition unique_langs (t : template) : Prop := NoDup (lang <$> values t).

Definition all_unique_keys (ps : gmap string project) : Prop :=
  ∀ pid p, ps !! pid = Some p → unique_keys (templates p).
Definition all_unique_langs (ps : gmap string project) : Prop :=
  ∀ pid p t, ps !! pid = Some p → t ∈ templates p → unique_langs t.

(** *** The methods *)

Section Methods.

(** [checkIfCan] of lib/scopes, the permission check, is a parameter;
    [Some e] stands for it raising [e]. *)
Variable checkIfCan : list string → string → option exn.

(** [formatNewlines] of response.utils, the newline normalisation of a
    sequence, is a parameter. *)
Variable formatNewlines : list fragment → list fragment.

(** [formatError] of lib/utils is a parameter. *)
Variable formatError : exn → exn.

(** [safeDump({ text: key })] of js-yaml. *)
Variable safeDump_text : string → string.

(** [JSON.parse] on a payload holding a list of templates; [None] stands
    for its SyntaxError. *)
Variable JSON_parse : string → option (list template).

(** [Date.now()]; every method reads the clock at most once. *)
Variable now : Z.

Definition check_can (scopes : list string) (projectId : string) : M unit :=
  match checkIfCan scopes projectId with
  | Some e => throw e
  | None => mret tt
  end.

(** [catch (e) { throw new Meteor.Error(e); }] *)
Definition rethrow {A} (e : exn) : M A := throw (MeteorErrorOf e).

Definition project_updateTemplate (projectId k : string) (item : template)
  : M nat :=
  check_can ["responses:w"] projectId;;
  match values item with
  | [] => throw TypeError
  | v0 :: vs =>
      let formattedItem :=
        Template (key item)
                 (Localized (lang v0) (formatNewlines (sequence v0)) :: vs)
                 (intents item) in
      try_catch
        (Projects_update (Selector projectId (Some k))
           [SetTemplate formattedItem; SetResponsesUpdatedAt now])
        rethrow
  end.

Definition project_deleteTemplate (projectId k lang : string) : M nat :=
  check_can ["responses:w"] projectId;;
  try_catch
    (Projects_update (Selector projectId (Some k))
       [PullTemplates [k]; SetResponsesUpdatedAt now])
    rethrow.

(** [{ sequence: [{ content: safeDump({ text: key }) }], lang }] *)
Definition newSeq (k l : string) : localized :=
  Localized l [Fragment (safeDump_text k)].

Definition project_findTemplate (projectId k lang : string) : M template :=
  check_can ["responses:r"] projectId;;
  try_catch
    (template ← Projects_findOne_key projectId k;
     let newSeq := newSeq k lang in
     match template with
     | None =>
         let template := Template k [newSeq] [] in
         Projects_update (Selector projectId None)
           [PushTemplates [template]; SetResponsesUpdatedAt now];;
         mret template
     | Some template =>
         match f_templates template with
         | Some (t0 :: _) =>
             if negb (existsb (λ v, bool_decide (Store.lang v = lang)) (values t0))
             then
               Projects_update (Selector projectId (Some k))
                 [PushValue newSeq; SetResponsesUpdatedAt now];;
               mret (push_value newSeq t0)
             else mret t0
         | _ => throw TypeError
         end
     end)
    rethrow.

Definition project_insertTemplate (projectId : string) (item : template)
  : M unit :=
  check_can ["responses:w"] projectId;;
  let k := key item in
  found ← Projects_findOne projectId;
  match found with
  | None => throw TypeError
  | Some doc =>
      let templates := default [] (f_templates doc) in
      match List.find (has_key k) templates with
      | Some _ =>
          throw (MeteorError (EStr "template-collision")
                   (Some ("Can not add template because one already exists with the key " +:+ k)))
      | None =>
          try_catch
            (Projects_update (Selector projectId None)
               [PushTemplates [item]; SetResponsesUpdatedAt now];;
             mret tt)
            rethrow
      end
  end.

Definition templates_download (projectId : string)
  : M (option (list template)) :=
  check_can ["responses:r"] projectId;;
  project ← Projects_findOne projectId;
  match project with
  | None => throw (MeteorError (EStr "404") (Some "Project not found"))
  | Some doc => mret (f_templates doc)
  end.

Definition templates_import (projectId : string)
    (templates : string + list template) : M unit :=
  check_can ["responses:w"] projectId;;
  newTemplates ← match templates with
                 | inl s =>
                     match JSON_parse s with
                     | Some l => mret l
                     | None => throw SyntaxError
                     end
                 | inr l => mret l
                 end;
  found ← Projects_findOne projectId;
  match found with
  | None => throw TypeError
  | Some doc =>
      let oldTemplates := default [] (f_templates doc) in
      let pullTemplatesKey :=
        key <$> intersectionBy_key oldTemplates newTemplates in
      try_catch
        (Projects_update (Selector projectId None)
           [PullTemplates pullTemplatesKey];;
         Projects_update (Selector projectId None)
           [PushTemplates newTemplates; SetResponsesUpdatedAt now];;
         mret tt)
        rethrow
  end.

Definition templates_removeByKey (projectId : string)
    (arg : string + list string) : M unit :=
  check_can ["responses:w"] projectId;;
  let templateKeys := match arg with inl s => [s] | inr l => l end in
  try_catch
    (Projects_update (Selector projectId None)
       [PullTemplates templateKeys; SetResponsesUpdatedAt now];;
     mret tt)
    (λ e, throw (formatError e)).

Definition templates_countWithIntent (projectId intent : string) : M bool :=
  check_can ["nlu-data:r"; "responses:r"; "conversations:r"] projectId;;
  project ← Projects_find_intent projectId intent;
  match project with
  | [] => throw TypeError
  | p0 :: _ => mret (bool_decide (is_Some (f_templates p0)))
  end.

(** The methods that write to a project's templates, as requests. *)
Inductive mutation :=
  | UpdateTemplate (projectId k : string) (item : template)
  | DeleteTemplate (projectId k lang : string)
  | FindTemplate (projectId k lang : string)
  | InsertTemplate (projectId : string) (item : template)
  | Import (projectId : string) (templates : string + list template)
  | RemoveByKey (projectId : string) (arg : string + list string).

(** Run a request, dropping the value returned. *)
Definition dispatch (c : mutation) : M unit :=
  match c with
  | UpdateTemplate projectId k item =>
      project_updateTemplate projectId k item;; mret tt
  | DeleteTemplate projectId k lang =>
      project_deleteTemplate projectId k lang;; mret tt
  | FindTemplate projectId k lang =>
      project_findTemplate projectId k lang;; mret tt
  | InsertTemplate projectId item => project_insertTemplate projectId item
  | Import projectId templates => templates_import projectId templates
  | RemoveByKey projectId arg => templates_removeByKey projectId arg
  end.

(** Requests that bring no second template for a key: an update whose
    item keeps the key it replaces, an import whose payload has one
    template per key. *)
Definition keeps_keys (c : mutation) : Prop :=
  match c with
  | UpdateTemplate _ k item => key item = k
  | Import _ (inl s) =>
      match JSON_parse s with
      | Some N => unique_keys N
      | None => True
      end
  | Import _ (inr N) => unique_keys N
  | _ => True
  end.

(** Either no project changed, or one did and it carries the timestamp. *)
Definition bumped (ps ps' : gmap string project) : Prop :=
  ps' = ps
  ∨ ∃ pid q, ps' = <[pid := q]> ps ∧ responsesUpdatedAt q = Some now.

End Methods.

End TemplateMethods.

(** ** imports/api/user/user.schema.js *)

Module UserSchema.

(** *** Regular expressions, matched by derivatives *)

Inductive regex :=
  | Void
  | Eps
  | Class (p : ascii → bool)
  | Seq (r s : regex)
  | Alt (r s : regex)
  | Star (r : regex).

(** [r+] *)
Definition Plus (r : regex) : regex := Seq r (Star r).

Fixpoint nullable (r : regex) : bool :=
  match r with
  | Void => false
  | Eps => true
  | Class _ => false
  | Seq r s => nullable r && nullable s
  | Alt r s => nullable r || nullable s
  | Star _ => true
  end.

Fixpoint deriv (c : ascii) (r : regex) : regex :=
  match r with
  | Void => Void
  | Eps => Void
  | Class p => if p c then Eps else Void
  | Seq r s =>
      if nullable r then Alt (Seq (deriv c r) s) (deriv c s)
      else Seq (deriv c r) s
  | Alt r s => Alt (deriv c r) (deriv c s)
  | Star r => Seq (deriv c r) (Star r)
  end.

(** Some prefix of [s] is matched by [r]. *)
Fixpoint match_prefix (r : regex) (s : list ascii) : bool :=
  nullable r ||
  match s with
  | [] => false
  | c :: t => match_prefix (deriv c r) t
  end.

(** [s.match(r)] is not null: [r] matches somewhere in [s]. *)
Fixpoint search (r : regex) (s : list ascii) : bool :=
  match_prefix r s ||
  match s with
  | [] => false
  | _ :: t => search r t
  end.

(** The words of a regular expression. *)
Inductive matches : regex → list ascii → Prop :=
  | MEps : matches Eps []
  | MClass p c : p c = true → matches (Class p) [c]
  | MSeq r s u v : matches r u → matches s v → matches (Seq r s) (u ++ v)
  | MAltL r s u : matches r u → matches (Alt r s) u
  | MAltR r s u : matches s u → matches (Alt r s) u
  | MStarNil r : matches (Star r) []
  | MStarCons r u v :
      matches r u → matches (Star r) v → matches (Star r) (u ++ v).

(** [\w]: [A-Za-z0-9_] *)
Definition word_char (c : ascii) : bool :=
  let n := nat_of_ascii c in
  ((48 <=? n)%nat && (n <=? 57)%nat) || ((65 <=? n)%nat && (n <=? 90)%nat)
  || (n =? 95)%nat || ((97 <=? n)%nat && (n <=? 122)%nat).

Definition is_char (a c : ascii) : bool := Ascii.eqb a c.

(** [/\w+:\w+/] *)
Definition scope_action : regex :=
  Seq (Plus (Class word_char)) (Seq (Class (is_char ":")) (Plus (Class word_char))).

(** [name.match(/\w+:\w+/)], as a truth value *)
Definition name_match (name : string) : bool :=
  search scope_action (list_ascii_of_string name).

(** A name with a scope:action shape inside: word characters, a colon,
    word characters. *)
Definition word (u : list ascii) : Prop :=
  u ≠ [] ∧ Forall (λ c, word_char c = true) u.

Definition scope_action_shaped (name : string) : Prop :=
  ∃ pre w1 w2 post,
    list_ascii_of_string name = pre ++ (w1 ++ ":"%char :: w2) ++ post
    ∧ word w1 ∧ word w2.

(** *** The schema's dynamic allowed values *)

(** What the lookups return: one record per role of [Meteor.roles], one
    per project of [Projects]. *)
Record role := Role { role_id : string }.
Record project_ref := ProjectRef { project_id : string; name : string }.

(** [allowedValues] of ['roles.$'] *)
Definition roles_allowedValues (roles : list role) : list string :=
  List.filter (λ name, negb (name_match name)) (map role_id roles).

(** [allowedValues] of [project] *)
Definition project_allowedValues (projects : list project_ref) : list string :=
  map project_id projects ++ ["GLOBAL"].

End UserSchema.

(** ** Sample worlds *)

Module Samples.

(** A permission check that lets everyone through, and a registry with the
    one schema [text], which accepts. *)
Definition allow : list string → string → option exn := λ _ _, None.
Definition schemas : string → option (doc → option exn) :=
  λ ty, if String.eqb ty "text" then Some (λ _, None) else None.

Definition stored_slot : doc :=
  {[ "_id" := VStr "s1"; "type" := VStr "text"; "name" := VStr "city";
     "projectId" := VStr "p1"; "initialValue" := VStr "Paris" ]}.
Definition sent_slot : doc :=
  {[ "_id" := VStr "s1"; "type" := VStr "text"; "name" := VStr "town";
     "projectId" := VStr "p1" ]}.
Definition untyped_slot : doc :=
  {[ "_id" := VStr "s1"; "name" := VStr "city" ]}.

(** A slot without [_id], a slot of a type without schema, and a registry
    whose [text] schema wants a [name]. *)
Definition new_slot : doc :=
  {[ "type" := VStr "text"; "name" := VStr "mood"; "projectId" := VStr "p2" ]}.
Definition odd_slot : doc :=
  {[ "_id" := VStr "s3"; "type" := VStr "matrix" ]}.
Definition nameless_slot : doc :=
  {[ "_id" := VStr "s4"; "type" := VStr "text" ]}.
Definition name_required : exn :=
  MeteorError (EStr "validation-error") (Some "Name is required").
Definition strict_schemas : string → option (doc → option exn) :=
  λ ty, if String.eqb ty "text"
        then Some (λ d, match d !! "name" with
                        | Some _ => None
                        | None => Some name_required
                        end)
        else None.

(** A generator that always answers ["fresh"]. *)
Definition fresh : world → SlotsMethods.random_id :=
  λ _, SlotsMethods.RandomId "f"%char "resh".

Definition w_quiet : world := World [stored_slot] ∅ [] [].
(** The next store call fails with a driver error of code 6. *)
Definition w_failing : world :=
  World [stored_slot] ∅ [Some (DriverError (Some 6%Z))] [].

Definition keep : list fragment → list fragment := λ fs, fs.
Definition dump : string → string := λ k, "text: " +:+ k.
Definition clock : Z := 1700000000000%Z.

Definition greet_en : localized := Localized "en" [Fragment "text: Hello"].
Definition greet : template := Template "utter_greet" [greet_en] [].
Definition bye : template :=
  Template "utter_bye" [Localized "en" [Fragment "text: Bye"]] ["goodbye"].
Definition greet_new : template :=
  Template "utter_greet" [Localized "en" [Fragment "text: Hi there"]] [].
Definition ask : template :=
  Template "utter_ask" [Localized "en" [Fragment "text: Why?"]] [].

(** The payload ["greet+ask"] stands for the serialized [greet_new; ask]. *)
Definition parse : string → option (list template) :=
  λ s, if String.eqb s "greet+ask" then Some [greet_new; ask] else None.

Definition P0 : project := Project [bye; greet] None.
Definition w_P : world := World [] {[ "P" := P0 ]} [] [].

(** The comparison of strings made of ASCII characters, where bytes and
    code units agree. *)
Definition ascii_gt : string → string → bool := λ a b, String.ltb b a.

Definition sample_templates : list template :=
  [Template "a" [Localized "fr" []; Localized "en" []] [];
   Template "b" [Localized "en" []; Localized "de" []] []].

(** A permission check that refuses everyone, and a world whose next store
    call fails. *)
Definition forbidden : exn := MeteorError (EStr "403") (Some "Forbidden").
Definition deny : list string → string → option exn := λ _ _, Some forbidden.
Definition broken : exn := DriverError None.
Definition w_P_failing : world := World [] {[ "P" := P0 ]} [Some broken] [].
(** A world whose third store call fails. *)
Definition w_P_push_fails : world :=
  World [] {[ "P" := P0 ]} [None; None; Some broken] [].

End Samples.

(** * Properties *)

(** ** The method monad *)

Module MonadFacts.

(** Unfold one layer of the method monad. *)
Ltac run := unfold mbind, M_bind, mret, M_ret, throw, try_catch, gets,
  set_Slots, set_Projects.

Lemma call_ok c w :
  next_fault (faults w) = None → call c w = (Ok tt, issued c w).
Proof. unfold call. by intros ->. Qed.

Lemma call_fails c w e :
  next_fault (faults w) = Some e → call c w = (Throw e, issued c w).
Proof. unfold call. by intros ->. Qed.

Lemma get_absent (o : doc) k : o !! k = None → get o k = VUndefined.
Proof. unfold get. by intros ->. Qed.

End MonadFacts.

(** ** Slots *)

Module SlotsProperties.
Import SlotsMethods MonadFacts Samples.

Section Facts.

Variable Random_id : world → random_id.
Variable checkIfCan : list string → string → option exn.
Variable slotSchemas : string → option (doc → option exn).

Abbreviation validateSchema := (SlotsMethods.validateSchema slotSchemas).
Abbreviation slots_insert :=
  (SlotsMethods.slots_insert Random_id checkIfCan slotSchemas).
Abbreviation slots_update := (SlotsMethods.slots_update checkIfCan slotSchemas).
Abbreviation slots_delete := (SlotsMethods.slots_delete checkIfCan slotSchemas).

Lemma check_can_ok scopes pid w :
  checkIfCan scopes pid = None → check_can checkIfCan scopes pid w = (Ok tt, w).
Proof. unfold check_can. by intros ->. Qed.

Lemma check_can_denied scopes pid w e :
  checkIfCan scopes pid = Some e →
  check_can checkIfCan scopes pid w = (Throw e, w).
Proof. unfold check_can. by intros ->. Qed.

Lemma validateSchema_no_type slot w :
  slot !! "type" = None →
  validateSchema slot w = (Throw (MeteorError (EStr "400") None), w).
Proof.
  intros H. unfold SlotsMethods.validateSchema. by rewrite (get_absent _ _ H).
Qed.

(** validateSchema never touches the world. *)
Lemma validateSchema_pure slot w r w' :
  validateSchema slot w = (r, w') → w' = w.
Proof.
  unfold SlotsMethods.validateSchema.
  destruct (truthy _); [|by inversion 1].
  destruct (slotSchemas _) as [schema|]; [|by inversion 1].
  destruct (schema slot); by inversion 1.
Qed.

(** What the catch handler makes of a caught error. *)
Lemma handleError_classifies {A} e w :
  @handleError A e w =
    (Throw (if bool_decide (code_of e = Some 11000%Z)
            then MeteorError (ENum 400) (Some "Slot already exists")
            else MeteorError (ENum 500) (Some "Server Error")), w).
Proof. unfold handleError. by case_bool_decide. Qed.

(** insert and update: a store call that fails is re-classified. *)
Lemma slots_insert_store_failure slot pid w e :
  checkIfCan ["stories:w"] pid = None →
  validateSchema slot w = (Ok tt, w) →
  insertable slot →
  next_fault (faults w) = Some e →
  slots_insert slot pid w =
    (Throw (if bool_decide (code_of e = Some 11000%Z)
            then MeteorError (ENum 400) (Some "Slot already exists")
            else MeteorError (ENum 500) (Some "Server Error")),
     issued SlotsInsert w).
Proof.
  intros Hcan Hval Hid Hf. unfold SlotsMethods.slots_insert. run.
  rewrite (check_can_ok _ _ _ Hcan), Hval.
  unfold Slots_insert, insertable in *.
  destruct (slot !! "_id") as [v|]; [rewrite Hid|]; unfold store_insert; run;
    rewrite (call_fails _ _ _ Hf); apply handleError_classifies.
Qed.

Lemma slots_update_store_failure slot pid w e :
  checkIfCan ["stories:w"] pid = None →
  validateSchema slot w = (Ok tt, w) →
  next_fault (faults w) = Some e →
  slots_update slot pid w =
    (Throw (if bool_decide (code_of e = Some 11000%Z)
            then MeteorError (ENum 400) (Some "Slot already exists")
            else MeteorError (ENum 500) (Some "Server Error")),
     issued SlotsUpdate w).
Proof.
  intros Hcan Hval Hf. unfold SlotsMethods.slots_update. run.
  rewrite (check_can_ok _ _ _ Hcan), Hval.
  unfold Slots_update. run. rewrite (call_fails _ _ _ Hf).
  apply handleError_classifies.
Qed.

(** C1. slots.delete has no catch around [Slots.remove]: a store failure
    reaches the caller as the driver raised it, whatever its code, where
    slots.insert and slots.update turn it into 400 'Slot already exists'
    or 500 'Server Error'. *)
Theorem slots_delete_store_failure_raw slot pid w e :
  checkIfCan ["stories:w"] pid = None →
  validateSchema slot w = (Ok tt, w) →
  next_fault (faults w) = Some e →
  slots_delete slot pid w = (Throw e, issued SlotsRemove w).
Proof.
  intros Hcan Hval Hf. unfold SlotsMethods.slots_delete. run.
  rewrite (check_can_ok _ _ _ Hcan), Hval.
  unfold Slots_remove. run. by rewrite (call_fails _ _ _ Hf).
Qed.

(** Denied permission: the permission error, nothing else happens. *)
Lemma slots_denied slot pid w e :
  checkIfCan ["stories:w"] pid = Some e →
  slots_insert slot pid w = (Throw e, w)
  ∧ slots_update slot pid w = (Throw e, w)
  ∧ slots_delete slot pid w = (Throw e, w).
Proof.
  intros Hcan.
  unfold SlotsMethods.slots_insert, SlotsMethods.slots_update,
    SlotsMethods.slots_delete. run.
  by rewrite (check_can_denied _ _ _ _ Hcan).
Qed.

(** C4. A slot without a [type] field is rejected by insert, update and
    delete alike: each call throws and leaves the world as it was, with no
    store call issued; once the permission check has let the caller
    through, the error thrown is Meteor.Error('400'). *)
Theorem slots_without_type_rejected slot pid w :
  slot !! "type" = None →
  ∃ e,
    slots_insert slot pid w = (Throw e, w)
    ∧ slots_update slot pid w = (Throw e, w)
    ∧ slots_delete slot pid w = (Throw e, w)
    ∧ (checkIfCan ["stories:w"] pid = None →
       e = MeteorError (EStr "400") None).
Proof.
  intros Hty.
  destruct (checkIfCan ["stories:w"] pid) as [d|] eqn:Hcan.
  - exists d. destruct (slots_denied slot pid w d Hcan) as (-> & -> & ->).
    by repeat split.
  - exists (MeteorError (EStr "400") None).
    unfold SlotsMethods.slots_insert, SlotsMethods.slots_update,
      SlotsMethods.slots_delete. run.
    rewrite (check_can_ok _ _ _ Hcan), (validateSchema_no_type _ _ Hty).
    by repeat split.
Qed.

Lemma update_first_hit (p : doc → bool) f pre d post :
  Forall (λ x, p x = false) pre → p d = true →
  update_first p f (pre ++ d :: post) = (pre ++ f d :: post, 1%nat).
Proof.
  intros Hpre Hd. induction Hpre as [|x pre Hx _ IH]; simpl.
  - by rewrite Hd.
  - by rewrite Hx, IH.
Qed.

(** C2 (amended). slots.update writes the fields of the slot over the
    stored slot with the same [_id]: every field of [slot] is stored with
    the value [slot] gives it, and every field of the old document that
    [slot] does not mention is kept as it was. *)
Theorem slots_update_merges slot pid w id pre old post :
  checkIfCan ["stories:w"] pid = None →
  validateSchema slot w = (Ok tt, w) →
  next_fault (faults w) = None →
  slot !! "_id" = Some id → truthy id = true →
  Slots w = pre ++ old :: post →
  Forall (λ d, d !! "_id" ≠ Some id) pre →
  old !! "_id" = Some id →
  ∃ stored,
    slots_update slot pid w =
      (Ok 1%nat, World (pre ++ stored :: post) (Projects w)
                       (tail (faults w)) (oplog w ++ [SlotsUpdate]))
    ∧ (∀ k v, slot !! k = Some v → stored !! k = Some v)
    ∧ (∀ k, slot !! k = None → stored !! k = old !! k).
Proof.
  intros Hcan Hval Hf Hid Htr Hdocs Hpre Hold.
  exists (slot ∪ old). split; [|split].
  - unfold SlotsMethods.slots_update. run.
    rewrite (check_can_ok _ _ _ Hcan), Hval.
    unfold Slots_update. run. rewrite (call_ok _ _ Hf). simpl.
    unfold get. rewrite Hid. simpl. rewrite Htr, Hdocs.
    rewrite (update_first_hit _ _ pre old post); [done| |].
    + eapply Forall_impl; [exact Hpre|]. intros d Hd. unfold has_id.
      by apply bool_decide_eq_false.
    + unfold has_id. by apply bool_decide_eq_true.
  - intros k v Hk. by apply lookup_union_Some_l.
  - intros k Hk. by apply lookup_union_r.
Qed.

End Facts.

Example slots_insert_duplicate :
  slots_insert fresh allow schemas sent_slot "p1" w_quiet =
    (Throw (MeteorError (ENum 400) (Some "Slot already exists")),
     issued SlotsInsert w_quiet).
Proof. reflexivity. Qed.

Example slots_update_failure_is_500 :
  slots_update allow schemas sent_slot "p1" w_failing =
    (Throw (MeteorError (ENum 500) (Some "Server Error")),
     issued SlotsUpdate w_failing).
Proof. reflexivity. Qed.

Lemma slots_delete_store_failure_raw_witness :
  slots_delete allow schemas sent_slot "p1" w_failing =
    (Throw (DriverError (Some 6%Z)), issued SlotsRemove w_failing).
Proof.
  apply (slots_delete_store_failure_raw allow schemas sent_slot "p1" w_failing);
    reflexivity.
Defined.

Lemma slots_without_type_rejected_witness :
  untyped_slot !! "type" = None ∧
  ∃ e,
    slots_insert fresh allow schemas untyped_slot "p1" w_quiet = (Throw e, w_quiet)
    ∧ slots_update allow schemas untyped_slot "p1" w_quiet = (Throw e, w_quiet)
    ∧ slots_delete allow schemas untyped_slot "p1" w_quiet = (Throw e, w_quiet)
    ∧ (allow ["stories:w"] "p1" = None → e = MeteorError (EStr "400") None).
Proof.
  split; [reflexivity|].
  apply (slots_without_type_rejected fresh allow schemas untyped_slot "p1"
           w_quiet).
  reflexivity.
Defined.

Lemma slots_update_merges_witness :
  ∃ stored,
    slots_update allow schemas sent_slot "p1" w_quiet =
      (Ok 1%nat, World ([] ++ stored :: []) ∅ [] [SlotsUpdate])
    ∧ (∀ k v, sent_slot !! k = Some v → stored !! k = Some v)
    ∧ (∀ k, sent_slot !! k = None → stored !! k = stored_slot !! k).
Proof.
  apply (slots_update_merges allow schemas sent_slot "p1" w_quiet
           (VStr "s1") [] stored_slot []);
    try reflexivity.
  constructor.
Defined.

(** C2 fails: updating the stored text slot with a slot that has no
    [initialValue] leaves the stored [initialValue] in place. *)
Lemma slots_update_keeps_unmentioned_field :
  ¬ update_replaces_fields allow schemas.
Proof.
  intros H.
  specialize (H sent_slot "p1" w_quiet 1%nat
                (World [sent_slot ∪ stored_slot] ∅ [] [SlotsUpdate])
                eq_refl eq_refl (sent_slot ∪ stored_slot)).
  assert (Hd : sent_slot ∪ stored_slot = sent_slot).
  { apply H; [apply list_elem_of_singleton; reflexivity | reflexivity]. }
  apply (f_equal (λ d : doc, d !! "initialValue")) in Hd.
  vm_compute in Hd. discriminate Hd.
Qed.

End SlotsProperties.

(** ** Response templates *)

Module TemplateProperties.
Import TemplateMethods MonadFacts Samples.

(** *** Lists of templates *)

Lemma has_key_true k t : has_key k t = true ↔ key t = k.
Proof. unfold has_key. apply bool_decide_eq_true. Qed.

Lemma has_key_false k t : has_key k t = false ↔ key t ≠ k.
Proof. unfold has_key. apply bool_decide_eq_false. Qed.

Lemma existsb_has_key k ts :
  existsb (has_key k) ts = true ↔ k ∈ key <$> ts.
Proof.
  rewrite existsb_exists, list_elem_of_fmap. split.
  - intros (t & Hin & Hk). exists t. apply has_key_true in Hk.
    split; [done|]. by apply list_elem_of_In.
  - intros (t & -> & Hin). exists t. split; [by apply list_elem_of_In|].
    by apply has_key_true.
Qed.

Lemma find_has_key_None k ts :
  List.find (has_key k) ts = None ↔ k ∉ key <$> ts.
Proof.
  induction ts as [|t ts IH]; simpl.
  - split; [intros _; apply not_elem_of_nil | done].
  - rewrite not_elem_of_cons. destruct (has_key k t) eqn:Hk.
    + apply has_key_true in Hk. split; [done|]. intros [Hne _]. by subst.
    + apply has_key_false in Hk. rewrite IH.
      split; [intros H; split; [congruence|done] | by intros [_ H]].
Qed.

Lemma index_of_None k ts : index_of k ts = None ↔ k ∉ key <$> ts.
Proof.
  induction ts as [|t ts IH]; simpl.
  - split; [intros _; apply not_elem_of_nil | done].
  - rewrite not_elem_of_cons. destruct (has_key k t) eqn:Hk.
    + apply has_key_true in Hk. split; [done|]. intros [Hne _]. by subst.
    + apply has_key_false in Hk. rewrite fmap_None, IH.
      split; [intros H; split; [congruence|done] | by intros [_ H]].
Qed.

Lemma first_with_key_index k ts pre t post :
  first_with_key k ts pre t post → index_of k ts = Some (length pre).
Proof.
  intros (-> & Hpre & Hk). induction Hpre as [|x pre Hx _ IH]; simpl.
  - apply has_key_true in Hk. by rewrite Hk.
  - apply has_key_false in Hx. by rewrite Hx, IH.
Qed.

Lemma first_with_key_find k ts pre t post :
  first_with_key k ts pre t post → List.find (has_key k) ts = Some t.
Proof.
  intros (-> & Hpre & Hk). induction Hpre as [|x pre Hx _ IH]; simpl.
  - apply has_key_true in Hk. by rewrite Hk.
  - apply has_key_false in Hx. by rewrite Hx, IH.
Qed.

Lemma first_with_key_exists k ts pre t post :
  first_with_key k ts pre t post → existsb (has_key k) ts = true.
Proof.
  intros (-> & _ & Hk). apply existsb_has_key.
  rewrite fmap_app, fmap_cons, Hk, elem_of_app. right. left.
Qed.

(** A key that occurs has a first occurrence. *)
Lemma first_with_key_of_elem k ts :
  k ∈ key <$> ts → ∃ pre t post, first_with_key k ts pre t post.
Proof.
  induction ts as [|x ts IH]; simpl.
  - intros H. by apply elem_of_nil in H.
  - intros H. destruct (decide (key x = k)) as [Hx|Hx].
    + exists [], x, ts. by repeat split.
    + apply elem_of_cons in H as [H|H]; [congruence|].
      destruct (IH H) as (pre & t & post & -> & Hpre & Hk).
      exists (x :: pre), t, post. repeat split; [|done]. by constructor.
Qed.

(** lodash intersectionBy: the keys of the result are the keys common to
    both lists. *)
Lemma elem_of_intersection_go k seen xs ys :
  k ∈ (key <$> intersection_go seen xs ys)
  ↔ (k ∉ seen) ∧ k ∈ (key <$> xs) ∧ k ∈ (key <$> ys).
Proof.
  revert seen. induction xs as [|x r IH]; intros seen; simpl.
  - split; [intros H; by apply elem_of_nil in H | intros (_ & H & _)].
    by apply elem_of_nil in H.
  - destruct (bool_decide (key x ∉ seen)) eqn:Hseen; simpl.
    + apply bool_decide_eq_true in Hseen.
      destruct (existsb (has_key (key x)) ys) eqn:Hys.
      * apply existsb_has_key in Hys. rewrite fmap_cons, !elem_of_cons, IH.
        rewrite not_elem_of_cons.
        destruct (decide (k = key x)) as [->|Hne]; [by intuition|].
        by intuition.
      * assert (Hn : key x ∉ key <$> ys).
        { intros Hin. apply existsb_has_key in Hin. congruence. }
        rewrite IH, elem_of_cons.
        destruct (decide (k = key x)) as [->|Hne]; by intuition.
    + apply bool_decide_eq_false in Hseen.
      rewrite IH, elem_of_cons.
      destruct (decide (k = key x)) as [->|Hne]; by intuition.
Qed.

Lemma elem_of_intersectionBy_key k xs ys :
  k ∈ (key <$> intersectionBy_key xs ys)
  ↔ k ∈ (key <$> xs) ∧ k ∈ (key <$> ys).
Proof.
  unfold intersectionBy_key. rewrite elem_of_intersection_go.
  split; [by intros (_ & ? & ?) | intros [? ?]].
  split; [apply not_elem_of_nil | done].
Qed.

Lemma filter_ext_elem {A} (P Q : A → Prop)
    `{∀ x, Decision (P x)} `{∀ x, Decision (Q x)} (l : list A) :
  (∀ x, x ∈ l → P x ↔ Q x) → filter P l = filter Q l.
Proof.
  induction l as [|x l IH]; intros HPQ; [done|].
  rewrite !filter_cons.
  assert (Hx : P x ↔ Q x) by (apply HPQ; left).
  rewrite IH by (intros y Hy; apply HPQ; by right).
  destruct (decide (P x)), (decide (Q x)); tauto || done.
Qed.

(** Pulling the keys of the intersection pulls every old template whose
    key occurs among the new ones. *)
Lemma pull_intersection (old new : list template) :
  filter (λ t, key t ∉ key <$> intersectionBy_key old new) old
  = filter (λ t, key t ∉ key <$> new) old.
Proof.
  apply filter_ext_elem. intros t Ht.
  rewrite elem_of_intersectionBy_key.
  assert (key t ∈ key <$> old) by (apply list_elem_of_fmap; eauto).
  tauto.
Qed.

(** *** The methods *)

Section Facts.

Variable checkIfCan : list string → string → option exn.
Variable formatNewlines : list fragment → list fragment.
Variable formatError : exn → exn.
Variable safeDump_text : string → string.
Variable JSON_parse : string → option (list template).
Variable now : Z.

Abbreviation check_can := (TemplateMethods.check_can checkIfCan).
Abbreviation newSeq := (TemplateMethods.newSeq safeDump_text).
Abbreviation bumped := (TemplateMethods.bumped now).
Abbreviation project_updateTemplate :=
  (TemplateMethods.project_updateTemplate checkIfCan formatNewlines now).
Abbreviation project_deleteTemplate :=
  (TemplateMethods.project_deleteTemplate checkIfCan now).
Abbreviation project_findTemplate :=
  (TemplateMethods.project_findTemplate checkIfCan safeDump_text now).
Abbreviation project_insertTemplate :=
  (TemplateMethods.project_insertTemplate checkIfCan now).
Abbreviation templates_import :=
  (TemplateMethods.templates_import checkIfCan JSON_parse now).
Abbreviation templates_removeByKey :=
  (TemplateMethods.templates_removeByKey checkIfCan formatError now).
Abbreviation templates_countWithIntent :=
  (TemplateMethods.templates_countWithIntent checkIfCan).

Lemma check_can_granted scopes pid w :
  checkIfCan scopes pid = None → check_can scopes pid w = (Ok tt, w).
Proof. unfold TemplateMethods.check_can. by intros ->. Qed.

Lemma Projects_findOne_ok pid w :
  next_fault (faults w) = None →
  Projects_findOne pid w =
    (Ok (p ← Projects w !! pid; Some (Fetched (Some (templates p)))),
     issued ProjectsFindOne w).
Proof. intros Hf. unfold Projects_findOne. run. by rewrite (call_ok _ _ Hf). Qed.

Lemma Projects_update_miss sel mods w :
  next_fault (faults w) = None →
  (∀ p, Projects w !! sel_id sel = Some p → sel_position sel p = None) →
  Projects_update sel mods w = (Ok 0%nat, issued ProjectsUpdate w).
Proof.
  intros Hf Hmiss. unfold Projects_update. run. rewrite (call_ok _ _ Hf).
  simpl. destruct (Projects w !! sel_id sel) as [p|] eqn:Hp; [|done].
  by rewrite (Hmiss p eq_refl).
Qed.

Lemma Projects_update_hit sel mods w p pos :
  next_fault (faults w) = None →
  Projects w !! sel_id sel = Some p →
  sel_position sel p = Some pos →
  Projects_update sel mods w =
    (Ok 1%nat,
     with_Projects (<[sel_id sel := foldl (apply_modifier pos) p mods]> (Projects w))
                   (issued ProjectsUpdate w)).
Proof.
  intros Hf Hp Hpos. unfold Projects_update. run. rewrite (call_ok _ _ Hf).
  simpl. by rewrite Hp, Hpos.
Qed.

(** C3. On a project identifier that matches no project,
    project.insertTemplate and templates.import destructure the
    [undefined] that findOne returns, and templates.countWithIntent reads
    [project[0].templates] of an empty list: each ends in a TypeError,
    which is no classified error. *)
Theorem missing_project_is_TypeError pid item N intent w :
  (∀ scopes, checkIfCan scopes pid = None) →
  next_fault (faults w) = None →
  Projects w !! pid = None →
  project_insertTemplate pid item w = (Throw TypeError, issued ProjectsFindOne w)
  ∧ templates_import pid (inr N) w = (Throw TypeError, issued ProjectsFindOne w)
  ∧ templates_countWithIntent pid intent w
      = (Throw TypeError, issued ProjectsFind w)
  ∧ classified TypeError = false.
Proof.
  intros Hcan Hf Hp. repeat split.
  - unfold TemplateMethods.project_insertTemplate. run.
    rewrite (check_can_granted _ _ _ (Hcan _)), (Projects_findOne_ok _ _ Hf).
    by rewrite Hp.
  - unfold TemplateMethods.templates_import. run.
    rewrite (check_can_granted _ _ _ (Hcan _)), (Projects_findOne_ok _ _ Hf).
    by rewrite Hp.
  - unfold TemplateMethods.templates_countWithIntent. run.
    rewrite (check_can_granted _ _ _ (Hcan _)).
    unfold Projects_find_intent. run. rewrite (call_ok _ _ Hf). simpl.
    by rewrite Hp.
Qed.

(** C8. With the project in place and the store answering,
    project.insertTemplate throws template-collision exactly when a
    template with the item's key is already there; then the projects are as
    before, and otherwise the item is appended to the project's templates. *)
Theorem insertTemplate_collision_iff pid item w p :
  checkIfCan ["responses:w"] pid = None →
  faults w = [] →
  Projects w !! pid = Some p →
  let out := project_insertTemplate pid item w in
  ((∃ reason, out.1 = Throw (MeteorError (EStr "template-collision") reason))
     ↔ key item ∈ key <$> templates p)
  ∧ (key item ∈ key <$> templates p → Projects out.2 = Projects w)
  ∧ (key item ∉ key <$> templates p →
     out = (Ok tt,
            with_Projects
              (<[pid := Project (templates p ++ [item]) (Some now)]> (Projects w))
              (issued ProjectsUpdate (issued ProjectsFindOne w)))).
Proof.
  intros Hcan Hq Hp out.
  assert (Hf : next_fault (faults w) = None) by by rewrite Hq.
  assert (Hout : out =
    match List.find (has_key (key item)) (templates p) with
    | Some _ =>
        (Throw (MeteorError (EStr "template-collision")
           (Some ("Can not add template because one already exists with the key "
                  +:+ key item))), issued ProjectsFindOne w)
    | None =>
        (Ok tt,
         with_Projects
           (<[pid := Project (templates p ++ [item]) (Some now)]> (Projects w))
           (issued ProjectsUpdate (issued ProjectsFindOne w)))
    end).
  { subst out. unfold TemplateMethods.project_insertTemplate. run.
    rewrite (check_can_granted _ _ _ Hcan), (Projects_findOne_ok _ _ Hf), Hp. simpl.
    destruct (List.find _ _); [done|].
    rewrite (Projects_update_hit _ _ _ p None); [done| |done|done].
    simpl. by rewrite Hq. }
  destruct (List.find (has_key (key item)) (templates p)) as [t|] eqn:Hfind.
  - assert (Hin : key item ∈ key <$> templates p).
    { destruct (decide (key item ∈ key <$> templates p)) as [|Hn]; [done|].
      apply find_has_key_None in Hn. congruence. }
    rewrite Hout. simpl. repeat split; try done.
    intros _. by eexists.
  - apply find_has_key_None in Hfind. rewrite Hout. simpl. repeat split.
    + by intros [reason Hr].
    + done.
    + done.
Qed.

(** C7. templates.import, given the list [N] itself or a string that
    parses to it, leaves the project with its old templates minus those
    whose key occurs in [N], followed by [N]. *)
Theorem templates_import_replaces pid payload N w p :
  checkIfCan ["responses:w"] pid = None →
  faults w = [] →
  Projects w !! pid = Some p →
  payload = inr N ∨ (∃ s, payload = inl s ∧ JSON_parse s = Some N) →
  templates_import pid payload w =
    (Ok tt,
     with_Projects
       (<[pid := Project (filter (λ t, key t ∉ key <$> N) (templates p) ++ N)
                         (Some now)]> (Projects w))
       (issued ProjectsUpdate (issued ProjectsUpdate (issued ProjectsFindOne w)))).
Proof.
  intros Hcan Hq Hp Hpayload.
  assert (Hf : next_fault (faults w) = None) by by rewrite Hq.
  unfold TemplateMethods.templates_import. run.
  rewrite (check_can_granted _ _ _ Hcan).
  destruct Hpayload as [->|(s & -> & Hs)]; [|rewrite Hs];
    rewrite (Projects_findOne_ok _ _ Hf), Hp; simpl.
  all:
  rewrite (Projects_update_hit _ _ _ p None); [|by simpl; rewrite Hq|done|done].
  all: rewrite (Projects_update_hit _ _ _
             (Project (filter (λ t, key t ∉ key <$> intersectionBy_key (templates p) N)
                              (templates p))
                      (responsesUpdatedAt p)) None);
    [|by simpl; rewrite Hq|by simpl; rewrite lookup_insert_eq|done].
  all: simpl; unfold with_Projects; simpl.
  all: by rewrite insert_insert_eq, pull_intersection.
Qed.

(** *** project.findTemplate *)

Lemma existsb_lang l vs :
  existsb (λ v, bool_decide (lang v = l)) vs = true ↔ l ∈ lang <$> vs.
Proof.
  rewrite existsb_exists, list_elem_of_fmap. split.
  - intros (v & Hin & Hv). apply bool_decide_eq_true in Hv.
    exists v. split; [done|]. by apply list_elem_of_In.
  - intros (v & -> & Hin). exists v. split; [by apply list_elem_of_In|].
    by apply bool_decide_eq_true.
Qed.

Lemma Projects_findOne_key_hit pid k w p pre t post :
  next_fault (faults w) = None →
  Projects w !! pid = Some p →
  first_with_key k (templates p) pre t post →
  Projects_findOne_key pid k w =
    (Ok (Some (Fetched (Some [t]))), issued ProjectsFindOne w).
Proof.
  intros Hf Hp Hfirst. unfold Projects_findOne_key. run.
  rewrite (call_ok _ _ Hf). simpl. rewrite Hp. simpl.
  rewrite (first_with_key_exists _ _ _ _ _ Hfirst). unfold elemMatch.
  by rewrite (first_with_key_find _ _ _ _ _ Hfirst).
Qed.

Lemma Projects_findOne_key_miss pid k w p :
  next_fault (faults w) = None →
  Projects w !! pid = Some p →
  k ∉ key <$> templates p →
  Projects_findOne_key pid k w = (Ok None, issued ProjectsFindOne w).
Proof.
  intros Hf Hp Hk. unfold Projects_findOne_key. run.
  rewrite (call_ok _ _ Hf). simpl. rewrite Hp. simpl.
  destruct (existsb (has_key k) (templates p)) eqn:He; [|done].
  by apply existsb_has_key in He.
Qed.

(** No template with the key: one is synthesized and pushed. *)
Lemma findTemplate_absent pid k l w p :
  checkIfCan ["responses:r"] pid = None →
  faults w = [] →
  Projects w !! pid = Some p →
  k ∉ key <$> templates p →
  project_findTemplate pid k l w =
    (Ok (Template k [newSeq k l] []),
     with_Projects
       (<[pid := Project (templates p ++ [Template k [newSeq k l] []])
                         (Some now)]> (Projects w))
       (issued ProjectsUpdate (issued ProjectsFindOne w))).
Proof.
  intros Hcan Hq Hp Hk.
  assert (Hf : next_fault (faults w) = None) by by rewrite Hq.
  unfold TemplateMethods.project_findTemplate. run.
  rewrite (check_can_granted _ _ _ Hcan), (Projects_findOne_key_miss _ _ _ p Hf Hp Hk).
  by rewrite (Projects_update_hit _ _ _ p None); [| simpl; rewrite Hq | |].
Qed.

(** The language is there already: the template is returned, and the only
    store call is the findOne. *)
Lemma findTemplate_existing_lang pid k l w p pre t post :
  checkIfCan ["responses:r"] pid = None →
  next_fault (faults w) = None →
  Projects w !! pid = Some p →
  first_with_key k (templates p) pre t post →
  has_lang l t →
  project_findTemplate pid k l w = (Ok t, issued ProjectsFindOne w).
Proof.
  intros Hcan Hf Hp Hfirst Hl.
  unfold TemplateMethods.project_findTemplate. run.
  rewrite (check_can_granted _ _ _ Hcan).
  rewrite (Projects_findOne_key_hit _ _ _ _ _ _ _ Hf Hp Hfirst). simpl.
  apply existsb_lang in Hl. by rewrite Hl.
Qed.

(** The template is there without the language: one value is pushed at
    the matched position. *)
Lemma findTemplate_missing_lang pid k l w p pre t post :
  checkIfCan ["responses:r"] pid = None →
  faults w = [] →
  Projects w !! pid = Some p →
  first_with_key k (templates p) pre t post →
  ¬ has_lang l t →
  let t' := Template (key t) (values t ++ [newSeq k l]) (intents t) in
  project_findTemplate pid k l w =
    (Ok t',
     with_Projects
       (<[pid := Project (pre ++ t' :: post) (Some now)]> (Projects w))
       (issued ProjectsUpdate (issued ProjectsFindOne w))).
Proof.
  intros Hcan Hq Hp Hfirst Hl t'.
  assert (Hf : next_fault (faults w) = None) by by rewrite Hq.
  unfold TemplateMethods.project_findTemplate. run.
  rewrite (check_can_granted _ _ _ Hcan).
  rewrite (Projects_findOne_key_hit _ _ _ _ _ _ _ Hf Hp Hfirst). simpl.
  destruct (existsb _ (values t)) eqn:He; [by apply existsb_lang in He|].
  simpl.
  rewrite (Projects_update_hit _ _ _ p (Some (length pre)));
    [| by simpl; rewrite Hq | done
     | by unfold sel_position; simpl;
          rewrite (first_with_key_index _ _ _ _ _ Hfirst) ].
  simpl. destruct Hfirst as (Hts & _ & _). rewrite Hts.
  rewrite <- (Nat.add_0_r (length pre)), alter_app_r. done.
Qed.

(** C5. On an existing project with the store answering, a first
    project.findTemplate leaves a template with the key that has a value
    for the language; a second call with the same arguments returns that
    same template, issues a findOne and nothing else, and leaves every
    project, so the template's values too, as the first call left it. *)
Theorem findTemplate_idempotent pid k l w p :
  checkIfCan ["responses:r"] pid = None →
  faults w = [] →
  Projects w !! pid = Some p →
  ∃ t w1 p1 pre post,
    project_findTemplate pid k l w = (Ok t, w1)
    ∧ Projects w1 !! pid = Some p1
    ∧ first_with_key k (templates p1) pre t post
    ∧ has_lang l t
    ∧ project_findTemplate pid k l w1 = (Ok t, issued ProjectsFindOne w1)
    ∧ Projects (issued ProjectsFindOne w1) = Projects w1.
Proof.
  intros Hcan Hq Hp.
  assert (Hf : next_fault (faults w) = None) by by rewrite Hq.
  destruct (decide (k ∈ key <$> templates p)) as [Hk|Hk].
  - destruct (first_with_key_of_elem _ _ Hk) as (pre & t & post & Hfirst).
    destruct (decide (has_lang l t)) as [Hl|Hl].
    + exists t, (issued ProjectsFindOne w), p, pre, post.
      rewrite (findTemplate_existing_lang _ _ _ _ _ _ _ _ Hcan Hf Hp Hfirst Hl).
      refine (conj eq_refl (conj Hp (conj Hfirst (conj Hl (conj _ eq_refl))))).
      apply (findTemplate_existing_lang _ _ _ _ p pre t post); try done.
      simpl. by rewrite Hq.
    + set (t' := Template (key t) (values t ++ [newSeq k l]) (intents t)).
      rewrite (findTemplate_missing_lang _ _ _ _ _ _ _ _ Hcan Hq Hp Hfirst Hl).
      fold t'. destruct Hfirst as (Hts & Hpre & Hkt).
      assert (Hfirst' : first_with_key k (pre ++ t' :: post) pre t' post)
        by done.
      assert (Hl' : has_lang l t').
      { unfold has_lang, t'. simpl. rewrite fmap_app, elem_of_app.
        right. simpl. left. }
      eexists t', _, (Project (pre ++ t' :: post) (Some now)), pre, post.
      refine (conj eq_refl (conj _ (conj Hfirst' (conj Hl' (conj _ eq_refl))))).
      * simpl. by rewrite lookup_insert_eq.
      * apply (findTemplate_existing_lang _ _ _ _
                 (Project (pre ++ t' :: post) (Some now)) pre t' post);
          [done | by simpl; rewrite Hq | by simpl; rewrite lookup_insert_eq
          | done | done].
  - set (t' := Template k [newSeq k l] []).
    rewrite (findTemplate_absent _ _ _ _ _ Hcan Hq Hp Hk). fold t'.
    assert (Hfirst' : first_with_key k (templates p ++ [t']) (templates p) t' []).
    { split; [done|]. split; [|done]. apply Forall_forall. intros x Hx Hkx.
      apply Hk, list_elem_of_fmap. by exists x. }
    assert (Hl' : has_lang l t').
    { unfold has_lang, t'. simpl. left. }
    eexists t', _, (Project (templates p ++ [t']) (Some now)), (templates p), [].
    refine (conj eq_refl (conj _ (conj Hfirst' (conj Hl' (conj _ eq_refl))))).
    + simpl. by rewrite lookup_insert_eq.
    + apply (findTemplate_existing_lang _ _ _ _
               (Project (templates p ++ [t']) (Some now)) (templates p) t' []);
        [done | by simpl; rewrite Hq | by simpl; rewrite lookup_insert_eq
        | done | done].
Qed.

Lemma filter_lang_absent l (vs : list localized) :
  l ∉ lang <$> vs → filter (λ v, lang v = l) vs = [].
Proof.
  induction vs as [|v vs IH]; [done|].
  rewrite fmap_cons, not_elem_of_cons. intros [Hne Hvs].
  rewrite filter_cons_False by congruence. by apply IH.
Qed.

(** C6. On a template that has no value for the language asked for,
    project.findTemplate pushes one value for it, whose single fragment is
    the YAML dump of the key, after the values already there: the stored
    template then has exactly one value for that language, its values for
    every other language are what they were, the other templates are
    untouched, the timestamp is set, and the template returned is the one
    now stored. *)
Theorem findTemplate_new_lang pid k l w p pre t post :
  checkIfCan ["responses:r"] pid = None →
  faults w = [] →
  Projects w !! pid = Some p →
  first_with_key k (templates p) pre t post →
  ¬ has_lang l t →
  ∃ t',
    project_findTemplate pid k l w =
      (Ok t',
       with_Projects
         (<[pid := Project (pre ++ t' :: post) (Some now)]> (Projects w))
         (issued ProjectsUpdate (issued ProjectsFindOne w)))
    ∧ key t' = key t ∧ intents t' = intents t
    ∧ values t' = values t ++ [Localized l [Fragment (safeDump_text k)]]
    ∧ filter (λ v, lang v = l) (values t')
      = [Localized l [Fragment (safeDump_text k)]]
    ∧ ∀ l', l' ≠ l →
        filter (λ v, lang v = l') (values t')
        = filter (λ v, lang v = l') (values t).
Proof.
  intros Hcan Hq Hp Hfirst Hl.
  exists (Template (key t) (values t ++ [newSeq k l]) (intents t)).
  split; [by apply (findTemplate_missing_lang _ _ _ _ p)|].
  split; [done|]. split; [done|]. split; [done|]. simpl. split.
  - rewrite filter_app, (filter_lang_absent _ _ Hl). simpl.
    by rewrite filter_cons_True, filter_nil.
  - intros l' Hne. rewrite filter_app.
    rewrite (filter_cons_False _ (newSeq k l)) by (simpl; congruence).
    by rewrite filter_nil, app_nil_r.
Qed.

(** *** The timestamp *)

Lemma Projects_update_eq sel mods w :
  Projects_update sel mods w =
    match next_fault (faults w) with
    | Some e => (Throw e, issued ProjectsUpdate w)
    | None =>
        match Projects w !! sel_id sel with
        | None => (Ok 0%nat, issued ProjectsUpdate w)
        | Some p =>
            match sel_position sel p with
            | None => (Ok 0%nat, issued ProjectsUpdate w)
            | Some pos =>
                (Ok 1%nat,
                 with_Projects
                   (<[sel_id sel := foldl (apply_modifier pos) p mods]> (Projects w))
                   (issued ProjectsUpdate w))
            end
        end
    end.
Proof.
  unfold Projects_update, call. run.
  destruct (next_fault (faults w)); [done|]. simpl.
  destruct (Projects w !! sel_id sel) as [p|]; [|done].
  by destruct (sel_position sel p).
Qed.

Lemma bumped_timestamp ps ps' pid p p' :
  bumped ps ps' →
  ps !! pid = Some p → ps' !! pid = Some p' →
  templates p' ≠ templates p → responsesUpdatedAt p' = Some now.
Proof.
  intros [->|(pid0 & q & -> & Hq)] Hp Hp' Hne; [congruence|].
  destruct (decide (pid0 = pid)) as [->|Hpid].
  - rewrite lookup_insert_eq in Hp'. congruence.
  - rewrite lookup_insert_ne in Hp' by done. congruence.
Qed.

(** One update that sets the timestamp among its operators. *)
Lemma Projects_update_bumped sel m w r w' :
  Projects_update sel [m; SetResponsesUpdatedAt now] w = (r, w') →
  bumped (Projects w) (Projects w').
Proof.
  rewrite Projects_update_eq.
  destruct (next_fault (faults w)); [intros [= <- <-]; by left|].
  destruct (Projects w !! sel_id sel) as [p|]; [|intros [= <- <-]; by left].
  destruct (sel_position sel p) as [pos|]; [|intros [= <- <-]; by left].
  intros [= <- <-]. right. by eexists _, _.
Qed.

Lemma check_can_cases scopes pid w :
  check_can scopes pid w = (Ok tt, w)
  ∨ ∃ e, check_can scopes pid w = (Throw e, w).
Proof.
  unfold TemplateMethods.check_can.
  destruct (checkIfCan scopes pid); [right; by eexists | by left].
Qed.

Lemma Projects_findOne_key_pure pid k w r w' :
  Projects_findOne_key pid k w = (r, w') → Projects w' = Projects w.
Proof.
  unfold Projects_findOne_key, call. run.
  destruct (next_fault (faults w)); by intros [= <- <-].
Qed.

Lemma Projects_findOne_cases pid w r w' :
  Projects_findOne pid w = (r, w') →
  w' = issued ProjectsFindOne w
  ∧ (r = Ok None ∨ (∃ e, r = Throw e)
     ∨ ∃ p, Projects w !! pid = Some p
            ∧ r = Ok (Some (Fetched (Some (templates p))))).
Proof.
  unfold Projects_findOne, call. run.
  destruct (next_fault (faults w)); simpl.
  - intros [= <- <-]. split; [done|]. right. left. by eexists.
  - intros [= <- <-]. split; [done|].
    destruct (Projects w !! pid) as [p|]; simpl; [|by left].
    right. right. by exists p.
Qed.

Lemma updateTemplate_bumped pid k item w r w' :
  project_updateTemplate pid k item w = (r, w') →
  bumped (Projects w) (Projects w').
Proof.
  unfold TemplateMethods.project_updateTemplate. run.
  destruct (check_can_cases ["responses:w"] pid w) as [->|[e ->]];
    [|intros [= <- <-]; by left].
  destruct (values item) as [|v0 vs]; [intros [= <- <-]; by left|].
  destruct (Projects_update _ _ w) as [[n|e] w1] eqn:Hu;
    intros [= <- <-]; by apply Projects_update_bumped in Hu.
Qed.

Lemma deleteTemplate_bumped pid k l w r w' :
  project_deleteTemplate pid k l w = (r, w') →
  bumped (Projects w) (Projects w').
Proof.
  unfold TemplateMethods.project_deleteTemplate. run.
  destruct (check_can_cases ["responses:w"] pid w) as [->|[e ->]];
    [|intros [= <- <-]; by left].
  destruct (Projects_update _ _ w) as [[n|e] w1] eqn:Hu;
    intros [= <- <-]; by apply Projects_update_bumped in Hu.
Qed.

Lemma removeByKey_bumped pid arg w r w' :
  templates_removeByKey pid arg w = (r, w') →
  bumped (Projects w) (Projects w').
Proof.
  unfold TemplateMethods.templates_removeByKey. run.
  destruct (check_can_cases ["responses:w"] pid w) as [->|[e ->]];
    [|intros [= <- <-]; by left].
  destruct (Projects_update _ _ w) as [[n|e] w1] eqn:Hu;
    intros [= <- <-]; by apply Projects_update_bumped in Hu.
Qed.

Lemma findTemplate_bumped pid k l w r w' :
  project_findTemplate pid k l w = (r, w') →
  bumped (Projects w) (Projects w').
Proof.
  unfold TemplateMethods.project_findTemplate. run.
  destruct (check_can_cases ["responses:r"] pid w) as [->|[e ->]];
    [|intros [= <- <-]; by left].
  destruct (Projects_findOne_key pid k w) as [[found|e] w1] eqn:Hfind;
    apply Projects_findOne_key_pure in Hfind; rewrite <- Hfind;
    [|intros [= <- <-]; by left].
  destruct found as [[[[|t0 ts]|]]|]; simpl.
  - intros [= <- <-]. by left.
  - destruct (existsb _ (values t0)); simpl.
    + intros [= <- <-]. by left.
    + destruct (Projects_update _ _ w1) as [[n|e] w2] eqn:Hu;
        intros [= <- <-]; by apply Projects_update_bumped in Hu.
  - intros [= <- <-]. by left.
  - destruct (Projects_update _ _ w1) as [[n|e] w2] eqn:Hu;
      intros [= <- <-]; by apply Projects_update_bumped in Hu.
Qed.

Lemma insertTemplate_bumped pid item w r w' :
  project_insertTemplate pid item w = (r, w') →
  bumped (Projects w) (Projects w').
Proof.
  unfold TemplateMethods.project_insertTemplate. run.
  destruct (check_can_cases ["responses:w"] pid w) as [->|[e ->]];
    [|intros [= <- <-]; by left].
  destruct (Projects_findOne pid w) as [[found|e] w1] eqn:Hfind;
    apply Projects_findOne_cases in Hfind as [-> _];
    [|intros [= <- <-]; by left].
  destruct found as [doc|]; [|intros [= <- <-]; by left].
  destruct (List.find _ _); [intros [= <- <-]; by left|].
  destruct (Projects_update _ _ _) as [[n|e] w2] eqn:Hu;
    intros [= <- <-]; by apply Projects_update_bumped in Hu.
Qed.

(** templates.import issues two updates and only the second sets the
    timestamp: when both go through, they hit the same project. *)
Lemma import_bumped pid payload w w' :
  templates_import pid payload w = (Ok tt, w') →
  bumped (Projects w) (Projects w').
Proof.
  unfold TemplateMethods.templates_import. run.
  destruct (check_can_cases ["responses:w"] pid w) as [->|[e ->]]; [|done].
  destruct payload as [s|N]; [destruct (JSON_parse s) as [N|]; [|done]|].
  all: destruct (Projects_findOne pid w) as [[found|e] w1] eqn:Hfind;
    apply Projects_findOne_cases in Hfind as [-> _]; [|intros [=]].
  all: destruct found as [doc|]; [|intros [=]].
  all: rewrite Projects_update_eq; simpl.
  all: destruct (next_fault (tail (faults w))); [intros [=]|].
  all: destruct (Projects w !! pid) as [p|] eqn:Hp; simpl.
  all: rewrite Projects_update_eq; simpl.
  all: destruct (next_fault (tail (tail (faults w)))); [intros [=]|].
  1,3: rewrite lookup_insert_eq; simpl; intros [= <-]; simpl; right;
    eexists _, _; by rewrite insert_insert_eq.
  all: rewrite Hp; intros [= <-]; by left.
Qed.

(** C9. templates.import pulls with one update and pushes, and sets the
    timestamp, with a second one.  When the pull lands and the push fails,
    the call throws with the templates whose key occurs in the payload
    gone from the project and responsesUpdatedAt as it was before the
    call: templates have changed and no timestamp was set. *)
Theorem import_pull_lands_without_timestamp pid N w p e rest :
  checkIfCan ["responses:w"] pid = None →
  Projects w !! pid = Some p →
  faults w = None :: None :: Some e :: rest →
  templates_import pid (inr N) w =
    (Throw (MeteorErrorOf e),
     with_Projects
       (<[pid := Project (filter (λ t, key t ∉ key <$> N) (templates p))
                         (responsesUpdatedAt p)]> (Projects w))
       (issued ProjectsUpdate (issued ProjectsUpdate (issued ProjectsFindOne w))))
  ∧ ∀ t, t ∈ templates p → key t ∈ key <$> N →
         filter (λ t, key t ∉ key <$> N) (templates p) ≠ templates p.
Proof.
  intros Hcan Hp Hq. split.
  - assert (Hf : next_fault (faults w) = None) by by rewrite Hq.
    unfold TemplateMethods.templates_import. run.
    rewrite (check_can_granted _ _ _ Hcan).
    rewrite (Projects_findOne_ok _ _ Hf), Hp. simpl.
    rewrite Projects_update_eq. simpl. rewrite Hq, Hp. simpl.
    rewrite Projects_update_eq. simpl. rewrite Hq. simpl.
    by rewrite pull_intersection.
  - intros t Ht Hk Heq. rewrite <- Heq in Ht.
    by apply list_elem_of_filter in Ht as [Hn _].
Qed.

(** X29. Whichever of the writing methods returns normally, a project
    whose templates differ afterwards carries the current time in
    responsesUpdatedAt. *)
Theorem mutation_sets_responsesUpdatedAt c w w' pid p p' :
  dispatch checkIfCan formatNewlines formatError safeDump_text JSON_parse now c w
    = (Ok tt, w') →
  Projects w !! pid = Some p →
  Projects w' !! pid = Some p' →
  templates p' ≠ templates p →
  responsesUpdatedAt p' = Some now.
Proof.
  intros Hrun. apply bumped_timestamp.
  destruct c as [pid0 k item|pid0 k l|pid0 k l|pid0 item|pid0 payload|pid0 arg];
    simpl in Hrun; revert Hrun; run.
  - destruct (project_updateTemplate pid0 k item w) as [[n|e] w1] eqn:H;
      intros [= <-]. by apply updateTemplate_bumped in H.
  - destruct (project_deleteTemplate pid0 k l w) as [[n|e] w1] eqn:H;
      intros [= <-]. by apply deleteTemplate_bumped in H.
  - destruct (project_findTemplate pid0 k l w) as [[n|e] w1] eqn:H;
      intros [= <-]. by apply findTemplate_bumped in H.
  - apply insertTemplate_bumped.
  - apply import_bumped.
  - apply removeByKey_bumped.
Qed.

End Facts.

(** On a missing project project.findTemplate returns the template it
    synthesized although its update matched nothing. *)
Example findTemplate_missing_project :
  project_findTemplate allow dump clock "nowhere" "utter_ask" "en" w_P =
    (Ok (Template "utter_ask" [Localized "en" [Fragment "text: utter_ask"]] []),
     issued ProjectsUpdate (issued ProjectsFindOne w_P)).
Proof. reflexivity. Qed.

(** templates.import whose second update fails: the old template is gone,
    the call throws, and the timestamp is not set. *)
Example import_second_update_fails :
  templates_import allow parse clock "P" (inr [greet_new])
    (World [] {[ "P" := P0 ]} [None; None; Some (DriverError None)] []) =
    (Throw (MeteorErrorOf (DriverError None)),
     World [] {[ "P" := Project [bye] None ]} []
           [ProjectsFindOne; ProjectsUpdate; ProjectsUpdate]).
Proof. reflexivity. Qed.

Lemma missing_project_is_TypeError_witness :
  project_insertTemplate allow clock "nowhere" ask w_P
    = (Throw TypeError, issued ProjectsFindOne w_P)
  ∧ templates_import allow parse clock "nowhere" (inr [ask]) w_P
    = (Throw TypeError, issued ProjectsFindOne w_P)
  ∧ templates_countWithIntent allow "nowhere" "goodbye" w_P
    = (Throw TypeError, issued ProjectsFind w_P)
  ∧ classified TypeError = false.
Proof.
  apply (missing_project_is_TypeError allow parse clock "nowhere" ask [ask]
           "goodbye" w_P); reflexivity.
Defined.

Lemma insertTemplate_collision_iff_witness :
  let out := project_insertTemplate allow clock "P" ask w_P in
  ((∃ reason, out.1 = Throw (MeteorError (EStr "template-collision") reason))
     ↔ key ask ∈ key <$> templates P0)
  ∧ (key ask ∈ key <$> templates P0 → Projects out.2 = Projects w_P)
  ∧ (key ask ∉ key <$> templates P0 →
     out = (Ok tt,
            with_Projects
              (<[ "P" := Project (templates P0 ++ [ask]) (Some clock)]>
                 (Projects w_P))
              (issued ProjectsUpdate (issued ProjectsFindOne w_P)))).
Proof.
  apply (insertTemplate_collision_iff allow clock "P" ask w_P P0); reflexivity.
Defined.

Lemma templates_import_replaces_witness :
  templates_import allow parse clock "P" (inl "greet+ask") w_P =
    (Ok tt,
     with_Projects
       (<[ "P" := Project (filter (λ t, key t ∉ key <$> [greet_new; ask])
                                   (templates P0) ++ [greet_new; ask])
                           (Some clock)]> (Projects w_P))
       (issued ProjectsUpdate (issued ProjectsUpdate
          (issued ProjectsFindOne w_P)))).
Proof.
  apply (templates_import_replaces allow parse clock "P" (inl "greet+ask")
           [greet_new; ask] w_P P0); try reflexivity.
  right. exists "greet+ask". split; reflexivity.
Defined.

Example templates_import_result :
  filter (λ t, key t ∉ key <$> [greet_new; ask]) (templates P0)
    ++ [greet_new; ask] = [bye; greet_new; ask].
Proof. reflexivity. Qed.

Lemma findTemplate_new_lang_witness :
  ∃ t',
    project_findTemplate allow dump clock "P" "utter_greet" "fr" w_P =
      (Ok t',
       with_Projects
         (<[ "P" := Project ([bye] ++ t' :: []) (Some clock)]> (Projects w_P))
         (issued ProjectsUpdate (issued ProjectsFindOne w_P)))
    ∧ key t' = key greet ∧ intents t' = intents greet
    ∧ values t' = values greet ++ [Localized "fr" [Fragment (dump "utter_greet")]]
    ∧ filter (λ v, lang v = "fr") (values t')
      = [Localized "fr" [Fragment (dump "utter_greet")]]
    ∧ ∀ l', l' ≠ "fr" →
        filter (λ v, lang v = l') (values t')
        = filter (λ v, lang v = l') (values greet).
Proof.
  apply (findTemplate_new_lang allow dump clock "P" "utter_greet" "fr" w_P P0
           [bye] greet []); try reflexivity.
  - split; [reflexivity|]. split; [|reflexivity].
    constructor; [discriminate | constructor].
  - unfold has_lang. simpl. intros H.
    apply list_elem_of_singleton in H. discriminate H.
Defined.

Lemma findTemplate_idempotent_witness :
  ∃ t w1 p1 pre post,
    project_findTemplate allow dump clock "P" "utter_greet" "fr" w_P = (Ok t, w1)
    ∧ Projects w1 !! "P" = Some p1
    ∧ first_with_key "utter_greet" (templates p1) pre t post
    ∧ has_lang "fr" t
    ∧ project_findTemplate allow dump clock "P" "utter_greet" "fr" w1
      = (Ok t, issued ProjectsFindOne w1)
    ∧ Projects (issued ProjectsFindOne w1) = Projects w1.
Proof.
  apply (findTemplate_idempotent allow dump clock "P" "utter_greet" "fr" w_P P0);
    reflexivity.
Defined.

Lemma import_pull_lands_without_timestamp_witness :
  templates_import allow parse clock "P" (inr [greet_new]) w_P_push_fails =
    (Throw (MeteorErrorOf broken),
     with_Projects
       (<[ "P" := Project (filter (λ t, key t ∉ key <$> [greet_new])
                                  (templates P0))
                          (responsesUpdatedAt P0)]> (Projects w_P_push_fails))
       (issued ProjectsUpdate (issued ProjectsUpdate
          (issued ProjectsFindOne w_P_push_fails))))
  ∧ ∀ t, t ∈ templates P0 → key t ∈ key <$> [greet_new] →
         filter (λ t, key t ∉ key <$> [greet_new]) (templates P0) ≠ templates P0.
Proof.
  apply (import_pull_lands_without_timestamp allow parse clock "P" [greet_new]
           w_P_push_fails P0 broken []); reflexivity.
Defined.

Lemma mutation_sets_responsesUpdatedAt_witness :
  let c := RemoveByKey "P" (inl "utter_greet") in
  let P1 := Project [bye] (Some clock) in
  let w' := with_Projects {[ "P" := P1 ]} (issued ProjectsUpdate w_P) in
  dispatch allow keep MeteorErrorOf dump parse clock c w_P = (Ok tt, w')
  ∧ Projects w_P !! "P" = Some P0
  ∧ Projects w' !! "P" = Some P1
  ∧ templates P1 ≠ templates P0
  ∧ responsesUpdatedAt P1 = Some clock.
Proof.
  intros c P1 w'.
  assert (Hrun : dispatch allow keep MeteorErrorOf dump parse clock c w_P
                 = (Ok tt, w')) by reflexivity.
  assert (Hne : templates P1 ≠ templates P0) by (simpl; discriminate).
  refine (conj Hrun (conj eq_refl (conj eq_refl (conj Hne _)))).
  exact (mutation_sets_responsesUpdatedAt allow keep MeteorErrorOf dump parse
           clock c w_P w' "P" P0 P1 Hrun eq_refl eq_refl Hne).
Defined.

End TemplateProperties.

(** ** The user role schema *)

Module UserSchemaProperties.
Import UserSchema.

(** *** Derivatives decide the language *)

Lemma nullable_matches r : nullable r = true ↔ matches r [].
Proof.
  split.
  - induction r; simpl; intros H; try discriminate.
    + constructor.
    + apply andb_true_iff in H as [H1 H2].
      apply (MSeq _ _ [] []); auto.
    + apply orb_true_iff in H as [H|H]; [apply MAltL | apply MAltR]; auto.
    + constructor.
  - intros H. remember [] as u eqn:Hu.
    induction H; simpl; try discriminate; try done.
    + apply app_eq_nil in Hu as [-> ->]. rewrite IHmatches1, IHmatches2; done.
    + rewrite IHmatches; done.
    + rewrite IHmatches, orb_true_r; done.
Qed.

Lemma deriv_sound c r : ∀ s, matches (deriv c r) s → matches r (c :: s).
Proof.
  induction r as [| |p|r1 IH1 r2 IH2|r1 IH1 r2 IH2|r IH]; simpl; intros s H.
  - inversion H.
  - inversion H.
  - destruct (p c) eqn:Hp; inversion H; subst. by constructor.
  - destruct (nullable r1) eqn:Hn.
    + inversion H as [| | | ? ? ? H1 | ? ? ? H2 | |]; subst.
      * inversion H1; subst. apply (MSeq _ _ (c :: _)); auto.
      * apply (MSeq _ _ [] (c :: s)); [by apply nullable_matches | auto].
    + inversion H; subst. apply (MSeq _ _ (c :: _)); auto.
  - inversion H; subst; [apply MAltL | apply MAltR]; auto.
  - inversion H; subst. apply (MStarCons _ (c :: _)); auto.
Qed.

Lemma deriv_complete c r u :
  matches r u → ∀ s, u = c :: s → matches (deriv c r) s.
Proof.
  induction 1 as [|p c' Hp|r s0 u v H1 IH1 H2 IH2|r s0 u H IH|r s0 u H IH
                  | |r u v H1 IH1 H2 IH2]; intros s Hu; simpl.
  - discriminate.
  - injection Hu as -> <-. rewrite Hp. constructor.
  - destruct u as [|c0 u'].
    + simpl in Hu. apply nullable_matches in H1. rewrite H1.
      apply MAltR. by apply IH2.
    + injection Hu as -> <-.
      destruct (nullable r); [apply MAltL|]; constructor; auto.
  - apply MAltL. by apply IH.
  - apply MAltR. by apply IH.
  - discriminate.
  - destruct u as [|c0 u'].
    + simpl in Hu. by apply IH2.
    + injection Hu as -> <-. constructor; auto.
Qed.

Lemma deriv_matches c r s : matches (deriv c r) s ↔ matches r (c :: s).
Proof.
  split; [apply deriv_sound | intros H; by eapply deriv_complete].
Qed.

Lemma match_prefix_spec r s :
  match_prefix r s = true ↔ ∃ u v, s = u ++ v ∧ matches r u.
Proof.
  revert r. induction s as [|c t IH]; intros r; simpl.
  - rewrite orb_false_r, nullable_matches. split.
    + intros H. by exists [], [].
    + intros (u & v & Huv & H). symmetry in Huv.
      apply app_eq_nil in Huv as [-> ->]. done.
  - rewrite orb_true_iff, nullable_matches, IH. split.
    + intros [H|(u & v & -> & H)].
      * by exists [], (c :: t).
      * exists (c :: u), v. split; [done|]. by apply deriv_matches.
    + intros (u & v & Huv & H). destruct u as [|c0 u'].
      * by left.
      * injection Huv as <- ->. right. exists u', v.
        split; [done|]. by apply deriv_matches.
Qed.

Lemma search_spec r s :
  search r s = true ↔ ∃ pre u post, s = pre ++ u ++ post ∧ matches r u.
Proof.
  induction s as [|c t IH]; simpl.
  - rewrite !orb_false_r, nullable_matches. split.
    + intros H. by exists [], [], [].
    + intros (pre & u & post & Heq & H). symmetry in Heq.
      apply app_eq_nil in Heq as [-> Heq].
      apply app_eq_nil in Heq as [-> ->]. done.
  - rewrite orb_true_iff, IH.
    change (nullable r || match_prefix (deriv c r) t)
      with (match_prefix r (c :: t)).
    rewrite match_prefix_spec. split.
    + intros [(u & v & Heq & H)|(pre & u & post & -> & H)].
      * exists [], u, v. by split.
      * exists (c :: pre), u, post. by split.
    + intros (pre & u & post & Heq & H). destruct pre as [|c0 pre'].
      * left. by exists u, post.
      * injection Heq as <- ->. right. by exists pre', u, post.
Qed.

(** *** The words of [/\w+:\w+/] *)

Lemma star_class p u :
  matches (Star (Class p)) u ↔ Forall (λ c, p c = true) u.
Proof.
  split.
  - intros H. remember (Star (Class p)) as r eqn:Hr.
    induction H as [| | | | | |r u v H1 _ H2 IH2]; try discriminate.
    + constructor.
    + injection Hr as ->. inversion H1; subst. simpl.
      constructor; [done | by apply IH2].
  - induction 1 as [|c u Hc _ IH]; [constructor|].
    apply (MStarCons _ [c] u); [by constructor | done].
Qed.

Lemma plus_class p u :
  matches (Plus (Class p)) u ↔ u ≠ [] ∧ Forall (λ c, p c = true) u.
Proof.
  unfold Plus. split.
  - intros H. inversion H as [| |? ? a b Ha Hb| | | |]; subst.
    inversion Ha; subst. apply star_class in Hb. simpl.
    split; [discriminate | by constructor].
  - intros [Hne Hall]. destruct Hall as [|c u Hc Hu]; [done|].
    apply (MSeq _ _ [c] u); [by constructor | by apply star_class].
Qed.

Lemma scope_action_matches u :
  matches scope_action u ↔ ∃ w1 w2, u = w1 ++ ":"%char :: w2 ∧ word w1 ∧ word w2.
Proof.
  unfold scope_action, word. split.
  - intros H. inversion H as [| |? ? a b Ha Hb| | | |]; subst.
    inversion Hb as [| |? ? c d Hc Hd| | | |]; subst.
    inversion Hc as [|? ch Hch| | | | |]; subst.
    unfold is_char in Hch. apply Ascii.eqb_eq in Hch as <-.
    apply plus_class in Ha, Hd. by exists a, d.
  - intros (w1 & w2 & -> & H1 & H2).
    apply MSeq; [by apply plus_class|].
    apply (MSeq _ _ [":"%char] w2); [|by apply plus_class].
    constructor. unfold is_char. by apply Ascii.eqb_eq.
Qed.

Lemma name_match_spec name :
  name_match name = true ↔ scope_action_shaped name.
Proof.
  unfold name_match, scope_action_shaped. rewrite search_spec. split.
  - intros (pre & u & post & Heq & H).
    apply scope_action_matches in H as (w1 & w2 & -> & H1 & H2).
    by exists pre, w1, w2, post.
  - intros (pre & w1 & w2 & post & Heq & H1 & H2).
    exists pre, (w1 ++ ":"%char :: w2), post. split; [done|].
    apply scope_action_matches. by exists w1, w2.
Qed.

Example simple_role_kept : name_match "global-admin" = false.
Proof. reflexivity. Qed.

Example scoped_role_dropped : name_match "nlu-data:r" = true.
Proof. reflexivity. Qed.

(** *** The allowed values *)

(** C10. For any snapshot of roles and projects, the values the schema
    allows for a role entry are the role names with no scope:action shape
    inside, and the values it allows for the project field are the project
    identifiers and GLOBAL. *)
Theorem allowedValues_exact (roles : list role) (projects : list project_ref) :
  (∀ x, x ∈ roles_allowedValues roles
        ↔ x ∈ role_id <$> roles ∧ ¬ scope_action_shaped x)
  ∧ (∀ y, y ∈ project_allowedValues projects
          ↔ y ∈ project_id <$> projects ∨ y = "GLOBAL").
Proof.
  split.
  - intros x. unfold roles_allowedValues.
    rewrite list_elem_of_In, filter_In, <- list_elem_of_In.
    rewrite negb_true_iff, <- name_match_spec, not_true_iff_false.
    done.
  - intros y. unfold project_allowedValues.
    rewrite elem_of_app, list_elem_of_singleton. done.
Qed.

End UserSchemaProperties.

(** * Further properties *)

(** ** Slots: store paths, validation outcomes, queries *)

Module SlotsExtras.
Import SlotsMethods MonadFacts Samples.

Lemma existsb_has_id_false id (docs : list doc) :
  Forall (λ d, d !! "_id" ≠ Some id) docs → existsb (has_id id) docs = false.
Proof.
  induction 1 as [|d docs Hd _ IH]; [done|]. simpl.
  unfold has_id at 1. by rewrite bool_decide_eq_false_2.
Qed.

Lemma existsb_has_id_true id (docs : list doc) d :
  d ∈ docs → d !! "_id" = Some id → existsb (has_id id) docs = true.
Proof.
  intros Hin Hd. apply existsb_exists. exists d.
  split; [by apply list_elem_of_In|]. unfold has_id. by apply bool_decide_eq_true.
Qed.

Lemma update_first_miss (p : doc → bool) f (l : list doc) :
  Forall (λ x, p x = false) l → update_first p f l = (l, 0%nat).
Proof.
  induction 1 as [|x l Hx _ IH]; [done|]. simpl. by rewrite Hx, IH.
Qed.

Section Facts.

Variable Random_id : world → random_id.
Variable checkIfCan : list string → string → option exn.
Variable slotSchemas : string → option (doc → option exn).

Abbreviation validateSchema := (SlotsMethods.validateSchema slotSchemas).
Abbreviation slots_insert :=
  (SlotsMethods.slots_insert Random_id checkIfCan slotSchemas).
Abbreviation slots_update := (SlotsMethods.slots_update checkIfCan slotSchemas).
Abbreviation slots_delete := (SlotsMethods.slots_delete checkIfCan slotSchemas).
Abbreviation check_can := (SlotsMethods.check_can checkIfCan).

Lemma can_ok scopes pid w :
  checkIfCan scopes pid = None → check_can scopes pid w = (Ok tt, w).
Proof. unfold SlotsMethods.check_can. by intros ->. Qed.

(** The outcome of validateSchema depends on the slot alone. *)
Lemma validateSchema_any_world slot w w' :
  validateSchema slot w = (Ok tt, w) → validateSchema slot w' = (Ok tt, w').
Proof.
  unfold SlotsMethods.validateSchema.
  destruct (truthy _); [|by inversion 1].
  destruct (slotSchemas _) as [schema|]; [|by inversion 1].
  destruct (schema slot); by inversion 1.
Qed.

Lemma validateSchema_cases slot w :
  validateSchema slot w = (Ok tt, w) ∨ ∃ e, validateSchema slot w = (Throw e, w).
Proof.
  unfold SlotsMethods.validateSchema.
  destruct (truthy _); [|right; by eexists].
  destruct (slotSchemas _) as [schema|]; [|right; by eexists].
  destruct (schema slot); [right; by eexists | by left].
Qed.

(** X1. slots.insert of a valid slot that has no [_id], or has a
    non-empty string for it, returns the [_id] (the generated one when the
    slot has none) and appends the slot, with the [_id] set, after the
    stored slots, provided no stored slot has that [_id] yet. *)
Theorem slots_insert_fresh slot pid w :
  checkIfCan ["stories:w"] pid = None →
  validateSchema slot w = (Ok tt, w) →
  next_fault (faults w) = None →
  insertable slot →
  let id := default (VStr (id_string (Random_id w))) (slot !! "_id") in
  Forall (λ d, d !! "_id" ≠ Some id) (Slots w) →
  slots_insert slot pid w =
    (Ok id, World (Slots w ++ [<["_id" := id]> slot]) (Projects w)
                  (tail (faults w)) (oplog w ++ [SlotsInsert])).
Proof.
  intros Hcan Hval Hf Hid id Hfresh.
  unfold SlotsMethods.slots_insert. run.
  rewrite (can_ok _ _ _ Hcan), Hval.
  unfold Slots_insert, insertable in *. subst id.
  destruct (slot !! "_id") as [v|]; [rewrite Hid|]; simpl in *;
    unfold store_insert; run; rewrite (call_ok _ _ Hf); simpl;
    by rewrite (existsb_has_id_false _ _ Hfresh).
Qed.

(** X28. A slot whose [_id] field is present but is not a non-empty string
    is refused by the collection before the store is reached, and
    slots.insert turns the refusal into 500 'Server Error'. *)
Theorem slots_insert_refused_id slot pid w v :
  checkIfCan ["stories:w"] pid = None →
  validateSchema slot w = (Ok tt, w) →
  slot !! "_id" = Some v → valid_id v = false →
  slots_insert slot pid w = (Throw E500, w).
Proof.
  intros Hcan Hval Hid Hv. unfold SlotsMethods.slots_insert. run.
  rewrite (can_ok _ _ _ Hcan), Hval.
  unfold Slots_insert. by rewrite Hid, Hv.
Qed.

(** A successful insert leaves a stored slot with the returned [_id],
    which is a non-empty string. *)
Lemma slots_insert_stores slot pid w id w1 :
  slots_insert slot pid w = (Ok id, w1) →
  valid_id id = true ∧ ∃ d, d ∈ Slots w1 ∧ d !! "_id" = Some id.
Proof.
  unfold SlotsMethods.slots_insert, SlotsMethods.check_can. run.
  destruct (checkIfCan _ _); [by intros [=]|].
  destruct (validateSchema_cases slot w) as [->|[e ->]]; [|by intros [=]].
  assert (Hstore : ∀ i, valid_id i = true →
    (let (r, w') := store_insert i slot w in
     match r with
     | Ok a => (Ok a, w')
     | Throw e => handleError e w'
     end) = (Ok id, w1) →
    valid_id id = true ∧ ∃ d, d ∈ Slots w1 ∧ d !! "_id" = Some id).
  { intros i Hi. unfold store_insert, call. run.
    destruct (next_fault (faults w)); simpl.
    { unfold handleError. case_bool_decide; by intros [=]. }
    destruct (existsb _ _); simpl.
    { unfold handleError. case_bool_decide; by intros [=]. }
    intros [= <- <-]. split; [done|]. simpl. eexists. split.
    - apply elem_of_app. right. left.
    - by rewrite lookup_insert_eq. }
  unfold Slots_insert. destruct (slot !! "_id") as [v|].
  - destruct (valid_id v) eqn:Hv; [by apply Hstore|].
    unfold handleError. simpl. by intros [=].
  - run. by apply Hstore.
Qed.

(** X2. After a successful slots.insert, inserting a slot that carries the
    [_id] just returned fails with 400 'Slot already exists' and leaves the
    stored slots as the first insert left them. *)
Theorem slots_insert_twice slot slot' pid w id w1 :
  checkIfCan ["stories:w"] pid = None →
  validateSchema slot' w1 = (Ok tt, w1) →
  slots_insert slot pid w = (Ok id, w1) →
  next_fault (faults w1) = None →
  slot' !! "_id" = Some id →
  slots_insert slot' pid w1 =
    (Throw (MeteorError (ENum 400) (Some "Slot already exists")),
     issued SlotsInsert w1).
Proof.
  intros Hcan Hval Hfirst Hf Hid.
  destruct (slots_insert_stores _ _ _ _ _ Hfirst) as (Hv & d & Hin & Hd).
  unfold SlotsMethods.slots_insert. run.
  rewrite (can_ok _ _ _ Hcan), Hval.
  unfold Slots_insert. rewrite Hid, Hv.
  unfold store_insert. run. rewrite (call_ok _ _ Hf). simpl.
  by rewrite (existsb_has_id_true _ _ _ Hin Hd).
Qed.

(** X3. A slot whose [type] is truthy but names no schema of the registry
    makes insert, update and delete end in a TypeError, thrown by
    validateSchema before any store call. *)
Theorem slots_unknown_type slot pid w :
  checkIfCan ["stories:w"] pid = None →
  truthy (get slot "type") = true →
  slotSchemas (to_key (get slot "type")) = None →
  slots_insert slot pid w = (Throw TypeError, w)
  ∧ slots_update slot pid w = (Throw TypeError, w)
  ∧ slots_delete slot pid w = (Throw TypeError, w).
Proof.
  intros Hcan Hty Hreg.
  assert (Hval : validateSchema slot w = (Throw TypeError, w)).
  { unfold SlotsMethods.validateSchema. by rewrite Hty, Hreg. }
  unfold SlotsMethods.slots_insert, SlotsMethods.slots_update,
    SlotsMethods.slots_delete. run.
  by rewrite (can_ok _ _ _ Hcan), Hval.
Qed.

(** X4. When the schema selected by the slot's [type] rejects the slot,
    insert, update and delete throw the schema's own error and issue no
    store call. *)
Theorem slots_schema_rejects slot pid w schema e :
  checkIfCan ["stories:w"] pid = None →
  truthy (get slot "type") = true →
  slotSchemas (to_key (get slot "type")) = Some schema →
  schema slot = Some e →
  slots_insert slot pid w = (Throw e, w)
  ∧ slots_update slot pid w = (Throw e, w)
  ∧ slots_delete slot pid w = (Throw e, w).
Proof.
  intros Hcan Hty Hreg He.
  assert (Hval : validateSchema slot w = (Throw e, w)).
  { unfold SlotsMethods.validateSchema. by rewrite Hty, Hreg, He. }
  unfold SlotsMethods.slots_insert, SlotsMethods.slots_update,
    SlotsMethods.slots_delete. run.
  by rewrite (can_ok _ _ _ Hcan), Hval.
Qed.

(** X5. slots.update of a valid slot whose [_id] is falsy or absent, or is
    the [_id] of no stored slot, returns 0 and changes no stored slot. *)
Theorem slots_update_no_match slot pid w :
  checkIfCan ["stories:w"] pid = None →
  validateSchema slot w = (Ok tt, w) →
  next_fault (faults w) = None →
  truthy (get slot "_id") = false
  ∨ Forall (λ d, d !! "_id" ≠ Some (get slot "_id")) (Slots w) →
  slots_update slot pid w = (Ok 0%nat, issued SlotsUpdate w).
Proof.
  intros Hcan Hval Hf Hmiss.
  unfold SlotsMethods.slots_update. run.
  rewrite (can_ok _ _ _ Hcan), Hval.
  unfold Slots_update. run. rewrite (call_ok _ _ Hf). simpl.
  destruct (truthy (get slot "_id")) eqn:Htr; [|done].
  destruct Hmiss as [|Hmiss]; [done|].
  rewrite update_first_miss; [by destruct w|].
  eapply Forall_impl; [exact Hmiss|]. intros d Hd. unfold has_id.
  by apply bool_decide_eq_false.
Qed.

Lemma selects_self (slot : doc) :
  match slot !! "_id" with Some i => truthy i = true | None => True end →
  selects slot slot = true.
Proof.
  intros Hid. unfold selects. apply andb_true_iff. split.
  - by destruct (slot !! "_id").
  - apply bool_decide_eq_true. intros k v Hkv.
    destruct v; simpl; auto.
Qed.

Lemma selects_other_id (slot d : doc) id :
  slot !! "_id" = Some id → d !! "_id" ≠ Some id → selects slot d = false.
Proof.
  intros Hid Hd. unfold selects. rewrite Hid.
  destruct (truthy id) eqn:Htr; [simpl|done].
  apply bool_decide_eq_false. intros Hall.
  specialize (Hall "_id" id Hid). destruct id; simpl in *; done.
Qed.

(** X6. slots.delete of a valid slot removes stored slots only: it returns
    the number removed, keeps every stored slot whose [_id] differs from
    the argument's, and, when the argument's [_id] is truthy or absent,
    leaves no stored slot equal to the argument. *)
Theorem slots_delete_removes slot pid w :
  checkIfCan ["stories:w"] pid = None →
  validateSchema slot w = (Ok tt, w) →
  next_fault (faults w) = None →
  ∃ kept,
    slots_delete slot pid w =
      (Ok (length (Slots w) - length kept)%nat,
       World kept (Projects w) (tail (faults w)) (oplog w ++ [SlotsRemove]))
    ∧ kept ⊆ Slots w
    ∧ (∀ d id, slot !! "_id" = Some id → d ∈ Slots w →
               d !! "_id" ≠ Some id → d ∈ kept)
    ∧ (match slot !! "_id" with Some i => truthy i = true | None => True end →
       slot ∉ kept).
Proof.
  intros Hcan Hval Hf.
  exists (filter (λ d, selects slot d = false) (Slots w)).
  split; [|split; [|split]].
  - unfold SlotsMethods.slots_delete. run.
    rewrite (can_ok _ _ _ Hcan), Hval.
    unfold Slots_remove. run. by rewrite (call_ok _ _ Hf).
  - intros d Hd. by apply list_elem_of_filter in Hd as [_ Hd].
  - intros d id Hid Hin Hd. apply list_elem_of_filter. split; [|done].
    by apply (selects_other_id _ _ id).
  - intros Hid Hin. apply list_elem_of_filter in Hin as [Hsel _].
    rewrite (selects_self _ Hid) in Hsel. discriminate.
Qed.

Lemma selects_projectId pid (d : doc) :
  selects {[ "projectId" := VStr pid ]} d = true
  ↔ d !! "projectId" = Some (VStr pid).
Proof.
  unfold selects. rewrite lookup_singleton_ne by done. simpl.
  rewrite bool_decide_eq_true, map_Forall_singleton. done.
Qed.

(** X7. slots.getSlots returns the stored slots whose [projectId] is the
    one asked for, in stored order, and writes nothing; no permission is
    asked for. *)
Theorem slots_getSlots_result pid w :
  next_fault (faults w) = None →
  slots_getSlots pid w =
    (Ok (filter (λ d, d !! "projectId" = Some (VStr pid)) (Slots w)),
     issued SlotsFind w).
Proof.
  intros Hf. unfold slots_getSlots, Slots_find. run.
  rewrite (call_ok _ _ Hf). cbv beta iota. do 2 f_equal.
  apply TemplateProperties.filter_ext_elem. intros d _.
  apply selects_projectId.
Qed.

Lemma handleError_400_or_500 {A} e w r w' :
  @handleError A e w = (r, w') → (r = Throw E400 ∨ r = Throw E500) ∧ w' = w.
Proof.
  unfold handleError. case_bool_decide; intros [= <- <-]; auto.
Qed.

(** X8. Once permission and validation have passed, slots.insert and
    slots.update throw nothing but 400 'Slot already exists' or 500 'Server
    Error', whatever the store does, and a call that throws leaves the
    stored slots as they were. *)
Theorem slots_insert_update_errors slot pid w :
  checkIfCan ["stories:w"] pid = None →
  validateSchema slot w = (Ok tt, w) →
  (∀ e w', slots_insert slot pid w = (Throw e, w') →
           (e = E400 ∨ e = E500) ∧ Slots w' = Slots w)
  ∧ (∀ e w', slots_update slot pid w = (Throw e, w') →
             (e = E400 ∨ e = E500) ∧ Slots w' = Slots w).
Proof.
  intros Hcan Hval. split; intros e w'.
  - unfold SlotsMethods.slots_insert. run.
    rewrite (can_ok _ _ _ Hcan), Hval.
    assert (Hstore : ∀ i,
      (let (r, w0) := store_insert i slot w in
       match r with
       | Ok a => (Ok a, w0)
       | Throw e0 => handleError e0 w0
       end) = (Throw e, w') →
      (e = E400 ∨ e = E500) ∧ Slots w' = Slots w).
    { intros i. unfold store_insert, call. run.
      destruct (next_fault (faults w)); simpl.
      { intros H. apply handleError_400_or_500 in H as [[[= ->]|[= ->]] ->];
          auto. }
      destruct (existsb _ _); simpl; [|by intros [=]].
      intros H. apply handleError_400_or_500 in H as [[[= ->]|[= ->]] ->];
        auto. }
    unfold Slots_insert. destruct (slot !! "_id") as [v|].
    + destruct (valid_id v); [by apply Hstore|].
      intros H. apply handleError_400_or_500 in H as [[[= ->]|[= ->]] ->]; auto.
    + run. by apply Hstore.
  - unfold SlotsMethods.slots_update. run.
    rewrite (can_ok _ _ _ Hcan), Hval.
    unfold Slots_update, call. run.
    destruct (next_fault (faults w)); simpl.
    { intros H. apply handleError_400_or_500 in H as [[[= ->]|[= ->]] ->]; auto. }
    destruct (truthy _); [|by intros [=]].
    destruct (update_first _ _ _); by intros [=].
Qed.

Lemma update_first_again (p : doc → bool) f (l : list doc) :
  (∀ d, p d = true → p (f d) = true) → (∀ d, f (f d) = f d) →
  update_first p f (update_first p f l).1 = update_first p f l.
Proof.
  intros Hp Hf. induction l as [|d l IH]; [done|]. simpl.
  destruct (p d) eqn:Hd; simpl.
  - by rewrite (Hp d Hd), Hf.
  - destruct (update_first p f l) as [l' n] eqn:Hl. simpl in *.
    by rewrite Hd, IH.
Qed.

(** X9. slots.update is idempotent on the stored slots: with the store
    answering, running the same update a second time returns the same
    count and leaves every stored slot as the first run left it. *)
Theorem slots_update_twice slot pid w :
  checkIfCan ["stories:w"] pid = None →
  validateSchema slot w = (Ok tt, w) →
  faults w = [] →
  ∃ n w1 w2,
    slots_update slot pid w = (Ok n, w1)
    ∧ slots_update slot pid w1 = (Ok n, w2)
    ∧ Slots w2 = Slots w1.
Proof.
  intros Hcan Hval Hq.
  assert (Hf : next_fault (faults w) = None) by by rewrite Hq.
  assert (Hrun : ∀ w0, faults w0 = [] →
    slots_update slot pid w0 =
      if truthy (get slot "_id") then
        (Ok (update_first (has_id (get slot "_id")) (λ d, slot ∪ d) (Slots w0)).2,
         World (update_first (has_id (get slot "_id")) (λ d, slot ∪ d) (Slots w0)).1
               (Projects w0) [] (oplog w0 ++ [SlotsUpdate]))
      else (Ok 0%nat, World (Slots w0) (Projects w0) [] (oplog w0 ++ [SlotsUpdate]))).
  { intros w0 Hq0. unfold SlotsMethods.slots_update. run.
    rewrite (can_ok _ _ _ Hcan), (validateSchema_any_world _ _ w0 Hval).
    unfold Slots_update. run. rewrite call_ok by by rewrite Hq0.
    simpl. destruct (truthy _).
    - destruct (update_first _ _ _). simpl. by rewrite Hq0.
    - simpl. unfold issued. by rewrite Hq0. }
  rewrite (Hrun w Hq). destruct (truthy (get slot "_id")) eqn:Htr.
  - eexists _, _, _. split; [done|]. rewrite Hrun by done. simpl.
    rewrite update_first_again; [done| |].
    + intros d Hd. unfold has_id in *. apply bool_decide_eq_true in Hd.
      apply bool_decide_eq_true. unfold get in *.
      destruct (slot !! "_id") as [i|] eqn:Hi; [|done]. simpl in *.
      by apply lookup_union_Some_l.
    + intros d. by rewrite (assoc_L (∪)), (idemp_L (∪)).
  - eexists _, _, _. split; [done|]. by rewrite Hrun.
Qed.

End Facts.

Lemma slots_insert_fresh_witness :
  slots_insert fresh allow schemas new_slot "p2" w_quiet =
    (Ok (VStr "fresh"),
     World (Slots w_quiet ++ [<["_id" := VStr "fresh"]> new_slot])
           (Projects w_quiet) (tail (faults w_quiet))
           (oplog w_quiet ++ [SlotsInsert])).
Proof.
  apply (slots_insert_fresh fresh allow schemas new_slot "p2" w_quiet);
    [reflexivity | reflexivity | reflexivity | exact I |].
  constructor; [discriminate | constructor].
Defined.

Lemma slots_insert_refused_id_witness :
  slots_insert fresh allow schemas
    {[ "_id" := VNum 5; "type" := VStr "text" ]} "p1" w_quiet
  = (Throw E500, w_quiet).
Proof.
  apply (slots_insert_refused_id fresh allow schemas
           {[ "_id" := VNum 5; "type" := VStr "text" ]} "p1" w_quiet (VNum 5));
    reflexivity.
Defined.

Lemma slots_insert_twice_witness :
  slots_insert fresh allow schemas
    (<["_id" := VStr "fresh"]> sent_slot) "p2"
    (World [stored_slot; <["_id" := VStr "fresh"]> new_slot] ∅ [] [SlotsInsert])
  = (Throw (MeteorError (ENum 400) (Some "Slot already exists")),
     issued SlotsInsert
       (World [stored_slot; <["_id" := VStr "fresh"]> new_slot] ∅ [] [SlotsInsert])).
Proof.
  apply (slots_insert_twice fresh allow schemas new_slot
           (<["_id" := VStr "fresh"]> sent_slot) "p2" w_quiet (VStr "fresh"));
    reflexivity.
Defined.

Lemma slots_unknown_type_witness :
  slots_insert fresh allow schemas odd_slot "p1" w_quiet
    = (Throw TypeError, w_quiet)
  ∧ slots_update allow schemas odd_slot "p1" w_quiet = (Throw TypeError, w_quiet)
  ∧ slots_delete allow schemas odd_slot "p1" w_quiet = (Throw TypeError, w_quiet).
Proof.
  apply (slots_unknown_type fresh allow schemas odd_slot "p1" w_quiet);
    reflexivity.
Defined.

Lemma slots_schema_rejects_witness :
  slots_insert fresh allow strict_schemas nameless_slot "p1" w_quiet
    = (Throw name_required, w_quiet)
  ∧ slots_update allow strict_schemas nameless_slot "p1" w_quiet
    = (Throw name_required, w_quiet)
  ∧ slots_delete allow strict_schemas nameless_slot "p1" w_quiet
    = (Throw name_required, w_quiet).
Proof.
  apply (slots_schema_rejects fresh allow strict_schemas nameless_slot "p1"
           w_quiet (λ d, match d !! "name" with
                         | Some _ => None
                         | None => Some name_required
                         end) name_required);
    reflexivity.
Defined.

Lemma slots_update_no_match_witness :
  slots_update allow schemas nameless_slot "p1" w_quiet
    = (Ok 0%nat, issued SlotsUpdate w_quiet).
Proof.
  apply (slots_update_no_match allow schemas nameless_slot "p1" w_quiet);
    try reflexivity.
  right. constructor; [discriminate | constructor].
Defined.

Lemma slots_delete_removes_witness :
  ∃ kept,
    slots_delete allow schemas stored_slot "p1" w_quiet =
      (Ok (length (Slots w_quiet) - length kept)%nat,
       World kept (Projects w_quiet) (tail (faults w_quiet))
             (oplog w_quiet ++ [SlotsRemove]))
    ∧ kept ⊆ Slots w_quiet
    ∧ (∀ d id, stored_slot !! "_id" = Some id → d ∈ Slots w_quiet →
               d !! "_id" ≠ Some id → d ∈ kept)
    ∧ (match stored_slot !! "_id" with
       | Some i => truthy i = true
       | None => True
       end → stored_slot ∉ kept).
Proof.
  apply (slots_delete_removes allow schemas stored_slot "p1" w_quiet);
    reflexivity.
Defined.

Lemma slots_getSlots_result_witness :
  slots_getSlots "p1" w_quiet =
    (Ok (filter (λ d, d !! "projectId" = Some (VStr "p1")) (Slots w_quiet)),
     issued SlotsFind w_quiet).
Proof. apply (slots_getSlots_result "p1" w_quiet). reflexivity. Defined.

Lemma slots_insert_update_errors_witness :
  (∀ e w', slots_insert fresh allow schemas sent_slot "p1" w_failing
             = (Throw e, w') →
           (e = E400 ∨ e = E500) ∧ Slots w' = Slots w_failing)
  ∧ (∀ e w', slots_update allow schemas sent_slot "p1" w_failing
               = (Throw e, w') →
             (e = E400 ∨ e = E500) ∧ Slots w' = Slots w_failing).
Proof.
  apply (slots_insert_update_errors fresh allow schemas sent_slot "p1"
           w_failing); reflexivity.
Defined.

Lemma slots_update_twice_witness :
  ∃ n w1 w2,
    slots_update allow schemas sent_slot "p1" w_quiet = (Ok n, w1)
    ∧ slots_update allow schemas sent_slot "p1" w1 = (Ok n, w2)
    ∧ Slots w2 = Slots w1.
Proof.
  apply (slots_update_twice allow schemas sent_slot "p1" w_quiet); reflexivity.
Defined.

End SlotsExtras.

(** ** Templates: languages, error paths, effects and invariants *)

Module TemplateExtras.
Import TemplateMethods MonadFacts Samples TemplateProperties.

(** *** getTemplateLanguages *)

Section LanguageFacts.

Variable js_gt : string → string → bool.

Abbreviation insert_sorted := (TemplateMethods.insert_sorted js_gt).
Abbreviation sortBy := (TemplateMethods.sortBy js_gt).
Abbreviation getTemplateLanguages := (TemplateMethods.getTemplateLanguages js_gt).
Abbreviation js_le := (TemplateMethods.js_le js_gt).
Abbreviation js_lt := (TemplateMethods.js_lt js_gt).

Lemma insert_sorted_perm x l : insert_sorted x l ≡ₚ x :: l.
Proof.
  induction l as [|y r IH]; simpl; [done|].
  destruct (js_gt x y); [|done]. rewrite IH. apply Permutation_swap.
Qed.

Lemma sortBy_perm l : sortBy l ≡ₚ l.
Proof.
  induction l as [|x l IH]; simpl; [done|].
  fold (sortBy l). by rewrite insert_sorted_perm, IH.
Qed.

Lemma insert_sorted_hd a x l :
  js_le a x → HdRel js_le a l → HdRel js_le a (insert_sorted x l).
Proof.
  intros Hax Hal. destruct l as [|y r]; simpl; [by constructor|].
  destruct (js_gt x y); constructor; [|done]. by inversion Hal.
Qed.

Hypothesis js_gt_order : strict_total js_gt.

Lemma insert_sorted_sorted x l :
  Sorted js_le l → Sorted js_le (insert_sorted x l).
Proof.
  induction 1 as [|y r Hr IH Hy]; simpl; [by repeat constructor|].
  destruct (js_gt x y) eqn:Hxy.
  - constructor; [done|]. apply insert_sorted_hd; [|done].
    by apply js_gt_order.
  - constructor; [by constructor|]. by constructor.
Qed.

Lemma sortBy_sorted l : Sorted js_le (sortBy l).
Proof.
  induction l as [|x l IH]; simpl; [constructor|].
  by apply insert_sorted_sorted.
Qed.

Lemma le_ne_lt a b : js_le a b → a ≠ b → js_lt a b.
Proof.
  unfold TemplateMethods.js_le, TemplateMethods.js_lt. intros Hab Hne.
  destruct js_gt_order as [_ Htotal].
  destruct (Htotal a b Hne) as [H|H]; [congruence|done].
Qed.

Lemma sorted_nodup_strict l :
  Sorted js_le l → NoDup l → Sorted js_lt l.
Proof.
  induction 1 as [|a l Hl IH Ha]; intros Hnd; [constructor|].
  apply NoDup_cons in Hnd as [Hin Hnd]. constructor; [by apply IH|].
  destruct Ha as [|b l' Hab]; constructor.
  apply le_ne_lt; [done|]. intros ->. apply Hin. left.
Qed.

Lemma push_lang_elem x acc vs :
  x ∈ foldl push_lang acc vs ↔ x ∈ acc ∨ x ∈ lang <$> vs.
Proof.
  revert acc. induction vs as [|v vs IH]; intros acc; simpl.
  - rewrite elem_of_nil. tauto.
  - rewrite IH, elem_of_cons. unfold push_lang. case_bool_decide as Hin.
    + split; [tauto|]. intros [?|[->|?]]; auto.
    + rewrite elem_of_app, list_elem_of_singleton. tauto.
Qed.

Lemma push_lang_nodup acc vs : NoDup acc → NoDup (foldl push_lang acc vs).
Proof.
  revert acc. induction vs as [|v vs IH]; intros acc Hacc; simpl; [done|].
  apply IH. unfold push_lang. case_bool_decide as Hin; [done|].
  apply NoDup_app. split; [done|]. split; [|apply NoDup_singleton].
  intros x Hx Hx'. apply list_elem_of_singleton in Hx'. by subst.
Qed.

Lemma collect_elem x acc (ts : list template) :
  x ∈ foldl (λ langs t, foldl push_lang langs (values t)) acc ts
  ↔ x ∈ acc ∨ ∃ t v, t ∈ ts ∧ v ∈ values t ∧ lang v = x.
Proof.
  revert acc. induction ts as [|t ts IH]; intros acc; simpl.
  - split; [by left|]. intros [?|(t & v & Ht & _)]; [done|].
    by apply elem_of_nil in Ht.
  - rewrite IH, push_lang_elem, list_elem_of_fmap. split.
    + intros [[?|(v & -> & Hv)]|(t' & v & Ht' & Hv & Hx)]; [by left| |].
      * right. exists t, v. split; [left|done].
      * right. exists t', v. split; [by right|done].
    + intros [?|(t' & v & Ht' & Hv & Hx)]; [by left; left|].
      apply elem_of_cons in Ht' as [->|Ht'].
      * left. right. by exists v.
      * right. by exists t', v.
Qed.

Lemma collect_nodup acc (ts : list template) :
  NoDup acc →
  NoDup (foldl (λ langs t, foldl push_lang langs (values t)) acc ts).
Proof.
  revert acc. induction ts as [|t ts IH]; intros acc Hacc; simpl; [done|].
  by apply IH, push_lang_nodup.
Qed.

(** X10. getTemplateLanguages lists the languages that occur among the
    values of the templates, each once, in strictly ascending order of
    the string comparison. *)
Theorem getTemplateLanguages_spec (ts : list template) :
  Sorted js_lt (getTemplateLanguages ts)
  ∧ NoDup (getTemplateLanguages ts)
  ∧ ∀ l, l ∈ getTemplateLanguages ts
         ↔ ∃ t v, t ∈ ts ∧ v ∈ values t ∧ lang v = l.
Proof.
  unfold TemplateMethods.getTemplateLanguages.
  set (langs := foldl _ [] ts).
  assert (Hnd : NoDup (sortBy langs)).
  { rewrite sortBy_perm. apply collect_nodup, NoDup_nil_2. }
  split; [|split; [done|]].
  - apply sorted_nodup_strict; [apply sortBy_sorted | done].
  - intros l. rewrite sortBy_perm. unfold langs. rewrite collect_elem.
    rewrite elem_of_nil. tauto.
Qed.

End LanguageFacts.

(** On ASCII strings the comparison is the order of the bytes. *)
Lemma ascii_gt_order : strict_total ascii_gt.
Proof.
  unfold ascii_gt, String.ltb. split.
  - intros a b. rewrite (String.compare_antisym a b).
    by destruct (String.compare b a).
  - intros a b Hne. rewrite (String.compare_antisym a b).
    destruct (String.compare b a) eqn:Hc; simpl; auto.
    apply String.compare_eq_iff in Hc. by subst.
Qed.

Lemma getTemplateLanguages_spec_witness :
  Sorted (js_lt ascii_gt) (getTemplateLanguages ascii_gt sample_templates)
  ∧ NoDup (getTemplateLanguages ascii_gt sample_templates)
  ∧ ∀ l, l ∈ getTemplateLanguages ascii_gt sample_templates
         ↔ ∃ t v, t ∈ sample_templates ∧ v ∈ values t ∧ lang v = l.
Proof.
  exact (getTemplateLanguages_spec ascii_gt ascii_gt_order sample_templates).
Defined.

Example getTemplateLanguages_sample :
  getTemplateLanguages ascii_gt sample_templates = ["de"; "en"; "fr"].
Proof. reflexivity. Qed.

Lemma filter_keeps_all {A} (P : A → Prop) `{∀ x, Decision (P x)} (l : list A) :
  (∀ x, x ∈ l → P x) → filter P l = l.
Proof.
  induction l as [|x l IH]; intros HP; [done|].
  rewrite filter_cons_True by (apply HP; left).
  f_equal. apply IH. intros y Hy. apply HP. by right.
Qed.

Lemma filter_drops_all {A} (P : A → Prop) `{∀ x, Decision (P x)} (l : list A) :
  (∀ x, x ∈ l → ¬ P x) → filter P l = [].
Proof.
  induction l as [|x l IH]; intros HP; [done|].
  rewrite filter_cons_False by (apply HP; left).
  apply IH. intros y Hy. apply HP. by right.
Qed.

(** *** Error paths *)

Section Facts.

Variable checkIfCan : list string → string → option exn.
Variable formatNewlines : list fragment → list fragment.
Variable formatError : exn → exn.
Variable safeDump_text : string → string.
Variable JSON_parse : string → option (list template).
Variable now : Z.

Abbreviation check_can := (TemplateMethods.check_can checkIfCan).
Abbreviation newSeq := (TemplateMethods.newSeq safeDump_text).
Abbreviation project_updateTemplate :=
  (TemplateMethods.project_updateTemplate checkIfCan formatNewlines now).
Abbreviation project_deleteTemplate :=
  (TemplateMethods.project_deleteTemplate checkIfCan now).
Abbreviation project_findTemplate :=
  (TemplateMethods.project_findTemplate checkIfCan safeDump_text now).
Abbreviation project_insertTemplate :=
  (TemplateMethods.project_insertTemplate checkIfCan now).
Abbreviation templates_download :=
  (TemplateMethods.templates_download checkIfCan).
Abbreviation templates_import :=
  (TemplateMethods.templates_import checkIfCan JSON_parse now).
Abbreviation templates_removeByKey :=
  (TemplateMethods.templates_removeByKey checkIfCan formatError now).
Abbreviation templates_countWithIntent :=
  (TemplateMethods.templates_countWithIntent checkIfCan).

Lemma can_denied scopes pid w e :
  checkIfCan scopes pid = Some e → check_can scopes pid w = (Throw e, w).
Proof. unfold TemplateMethods.check_can. by intros ->. Qed.

Lemma can_granted scopes pid w :
  checkIfCan scopes pid = None → check_can scopes pid w = (Ok tt, w).
Proof. unfold TemplateMethods.check_can. by intros ->. Qed.

(** X11. When the permission check refuses, each of the eight template
    methods throws the error of the check and leaves the world as it was:
    no store call is issued, and no argument is looked at. *)
Theorem templates_denied pid e w k l item payload arg intent :
  (∀ scopes, checkIfCan scopes pid = Some e) →
  project_updateTemplate pid k item w = (Throw e, w)
  ∧ project_deleteTemplate pid k l w = (Throw e, w)
  ∧ project_findTemplate pid k l w = (Throw e, w)
  ∧ project_insertTemplate pid item w = (Throw e, w)
  ∧ templates_download pid w = (Throw e, w)
  ∧ templates_import pid payload w = (Throw e, w)
  ∧ templates_removeByKey pid arg w = (Throw e, w)
  ∧ templates_countWithIntent pid intent w = (Throw e, w).
Proof.
  intros Hcan.
  unfold TemplateMethods.project_updateTemplate,
    TemplateMethods.project_deleteTemplate,
    TemplateMethods.project_findTemplate,
    TemplateMethods.project_insertTemplate,
    TemplateMethods.templates_download, TemplateMethods.templates_import,
    TemplateMethods.templates_removeByKey,
    TemplateMethods.templates_countWithIntent. run.
  rewrite !(can_denied _ _ _ _ (Hcan _)). by repeat split.
Qed.

(** X12. When the first store call of a method fails with [e]:
    updateTemplate, deleteTemplate and findTemplate throw Meteor.Error(e);
    removeByKey throws formatError(e); insertTemplate, import, download and
    countWithIntent, whose lookup stands outside any try, throw [e] itself.
    No project is changed. *)
Theorem templates_first_call_fails pid e w k l item v0 vs N arg intent :
  (∀ scopes, checkIfCan scopes pid = None) →
  next_fault (faults w) = Some e →
  values item = v0 :: vs →
  project_updateTemplate pid k item w
    = (Throw (MeteorErrorOf e), issued ProjectsUpdate w)
  ∧ project_deleteTemplate pid k l w
    = (Throw (MeteorErrorOf e), issued ProjectsUpdate w)
  ∧ project_findTemplate pid k l w
    = (Throw (MeteorErrorOf e), issued ProjectsFindOne w)
  ∧ templates_removeByKey pid arg w
    = (Throw (formatError e), issued ProjectsUpdate w)
  ∧ project_insertTemplate pid item w = (Throw e, issued ProjectsFindOne w)
  ∧ templates_import pid (inr N) w = (Throw e, issued ProjectsFindOne w)
  ∧ templates_download pid w = (Throw e, issued ProjectsFindOne w)
  ∧ templates_countWithIntent pid intent w = (Throw e, issued ProjectsFind w).
Proof.
  intros Hcan Hf Hv.
  unfold TemplateMethods.project_updateTemplate,
    TemplateMethods.project_deleteTemplate,
    TemplateMethods.project_findTemplate,
    TemplateMethods.project_insertTemplate,
    TemplateMethods.templates_download, TemplateMethods.templates_import,
    TemplateMethods.templates_removeByKey,
    TemplateMethods.templates_countWithIntent. run.
  rewrite !(can_granted _ _ _ (Hcan _)), Hv.
  rewrite !Projects_update_eq, Hf.
  unfold Projects_findOne_key, Projects_findOne, Projects_find_intent. run.
  rewrite !(call_fails _ _ _ Hf). by repeat split.
Qed.

(** X13. project.updateTemplate on a project that has the key puts the
    item, with the sequence of its first value newline-normalised, in the
    place of the first template with that key, leaves the templates around
    it alone, sets the timestamp and returns 1. *)
Theorem updateTemplate_replaces pid k item v0 vs w p pre t post :
  checkIfCan ["responses:w"] pid = None →
  next_fault (faults w) = None →
  Projects w !! pid = Some p →
  first_with_key k (templates p) pre t post →
  values item = v0 :: vs →
  let item' := Template (key item)
                 (Localized (lang v0) (formatNewlines (sequence v0)) :: vs)
                 (intents item) in
  project_updateTemplate pid k item w =
    (Ok 1%nat,
     with_Projects
       (<[pid := Project (pre ++ item' :: post) (Some now)]> (Projects w))
       (issued ProjectsUpdate w)).
Proof.
  intros Hcan Hf Hp Hfirst Hv item'.
  unfold TemplateMethods.project_updateTemplate. run.
  rewrite (can_granted _ _ _ Hcan), Hv.
  rewrite (Projects_update_hit _ _ _ p (Some (length pre)));
    [| done | done
     | by unfold sel_position; simpl;
          rewrite (first_with_key_index _ _ _ _ _ Hfirst) ].
  simpl. destruct Hfirst as (-> & _ & _).
  by rewrite <- (Nat.add_0_r (length pre)), insert_app_r.
Qed.

(** X14. An item without values makes project.updateTemplate end in a
    TypeError before any store call. *)
Theorem updateTemplate_empty_values pid k item w :
  checkIfCan ["responses:w"] pid = None →
  values item = [] →
  project_updateTemplate pid k item w = (Throw TypeError, w).
Proof.
  intros Hcan Hv. unfold TemplateMethods.project_updateTemplate. run.
  by rewrite (can_granted _ _ _ Hcan), Hv.
Qed.

(** X15. On a project without the key, project.updateTemplate and
    project.deleteTemplate return 0 and change nothing, the timestamp
    included; templates.removeByKey with that key keeps the templates and
    sets the timestamp all the same. *)
Theorem unknown_key_effects pid k l item v0 vs w p :
  checkIfCan ["responses:w"] pid = None →
  next_fault (faults w) = None →
  Projects w !! pid = Some p →
  k ∉ key <$> templates p →
  values item = v0 :: vs →
  project_updateTemplate pid k item w = (Ok 0%nat, issued ProjectsUpdate w)
  ∧ project_deleteTemplate pid k l w = (Ok 0%nat, issued ProjectsUpdate w)
  ∧ templates_removeByKey pid (inl k) w =
      (Ok tt,
       with_Projects (<[pid := Project (templates p) (Some now)]> (Projects w))
                     (issued ProjectsUpdate w)).
Proof.
  intros Hcan Hf Hp Hk Hv.
  assert (Hmiss : ∀ q, Projects w !! pid = Some q →
            sel_position (Selector pid (Some k)) q = None).
  { intros q Hq. unfold sel_position. simpl.
    assert (q = p) as -> by congruence.
    apply index_of_None in Hk. by rewrite Hk. }
  split; [|split].
  - unfold TemplateMethods.project_updateTemplate. run.
    rewrite (can_granted _ _ _ Hcan), Hv.
    by rewrite (Projects_update_miss (Selector pid (Some k)) _ _ Hf Hmiss).
  - unfold TemplateMethods.project_deleteTemplate. run.
    rewrite (can_granted _ _ _ Hcan).
    by rewrite (Projects_update_miss (Selector pid (Some k)) _ _ Hf Hmiss).
  - unfold TemplateMethods.templates_removeByKey. run.
    rewrite (can_granted _ _ _ Hcan).
    rewrite (Projects_update_hit _ _ _ p None); [|done|done|done].
    simpl. rewrite filter_keeps_all; [done|]. intros t Ht Hin.
    apply list_elem_of_singleton in Hin. apply Hk.
    apply list_elem_of_fmap. by exists t.
Qed.

(** *** Removal, lookup *)

(** X16. project.deleteTemplate on a project that has the key removes
    every template with that key, whatever language is passed, keeps the
    others in order, sets the timestamp and returns 1. *)
Theorem deleteTemplate_removes pid k l w p :
  checkIfCan ["responses:w"] pid = None →
  next_fault (faults w) = None →
  Projects w !! pid = Some p →
  k ∈ key <$> templates p →
  project_deleteTemplate pid k l w =
    (Ok 1%nat,
     with_Projects
       (<[pid := Project (filter (λ t, key t ≠ k) (templates p)) (Some now)]>
          (Projects w))
       (issued ProjectsUpdate w))
  ∧ k ∉ key <$> filter (λ t, key t ≠ k) (templates p).
Proof.
  intros Hcan Hf Hp Hk. split.
  - destruct (first_with_key_of_elem _ _ Hk) as (pre & t & post & Hfirst).
    unfold TemplateMethods.project_deleteTemplate. run.
    rewrite (can_granted _ _ _ Hcan).
    rewrite (Projects_update_hit _ _ _ p (Some (length pre)));
      [| done | done
       | by unfold sel_position; simpl;
            rewrite (first_with_key_index _ _ _ _ _ Hfirst) ].
    simpl. do 4 f_equal. apply filter_ext_elem. intros x _.
    by rewrite list_elem_of_singleton.
  - intros Hin. apply list_elem_of_fmap in Hin as (t & -> & Ht).
    by apply list_elem_of_filter in Ht as [Hne _].
Qed.

(** X17. templates.removeByKey, given one key or a list of keys, leaves
    exactly the templates whose key is not among them, in order, and sets
    the timestamp. *)
Theorem removeByKey_removes pid arg w p :
  checkIfCan ["responses:w"] pid = None →
  next_fault (faults w) = None →
  Projects w !! pid = Some p →
  let keys := match arg with inl s => [s] | inr ks => ks end in
  ∃ left_over,
    templates_removeByKey pid arg w =
      (Ok tt,
       with_Projects (<[pid := Project left_over (Some now)]> (Projects w))
                     (issued ProjectsUpdate w))
    ∧ left_over `sublist_of` templates p
    ∧ ∀ t, t ∈ left_over ↔ t ∈ templates p ∧ key t ∉ keys.
Proof.
  intros Hcan Hf Hp keys.
  exists (filter (λ t, key t ∉ keys) (templates p)). split; [|split].
  - unfold TemplateMethods.templates_removeByKey. run.
    rewrite (can_granted _ _ _ Hcan).
    by rewrite (Projects_update_hit _ _ _ p None).
  - apply sublist_filter.
  - intros t. rewrite list_elem_of_filter. split; intros [? ?]; by split.
Qed.

(** X18. On a project identifier that matches no project, updateTemplate
    and deleteTemplate return 0, removeByKey returns normally, and
    findTemplate returns the template it synthesized: none of them throws
    and none of them stores anything. *)
Theorem missing_project_silent pid k l item v0 vs arg w :
  (∀ scopes, checkIfCan scopes pid = None) →
  faults w = [] →
  Projects w !! pid = None →
  values item = v0 :: vs →
  project_updateTemplate pid k item w = (Ok 0%nat, issued ProjectsUpdate w)
  ∧ project_deleteTemplate pid k l w = (Ok 0%nat, issued ProjectsUpdate w)
  ∧ templates_removeByKey pid arg w = (Ok tt, issued ProjectsUpdate w)
  ∧ project_findTemplate pid k l w =
      (Ok (Template k [newSeq k l] []),
       issued ProjectsUpdate (issued ProjectsFindOne w)).
Proof.
  intros Hcan Hq Hp Hv.
  assert (Hf : next_fault (faults w) = None) by by rewrite Hq.
  unfold TemplateMethods.project_updateTemplate,
    TemplateMethods.project_deleteTemplate,
    TemplateMethods.templates_removeByKey,
    TemplateMethods.project_findTemplate. run.
  rewrite !(can_granted _ _ _ (Hcan _)), Hv.
  rewrite !(Projects_update_eq _ _ w), Hf. simpl. rewrite Hp.
  unfold Projects_findOne_key. run. rewrite (call_ok _ _ Hf). simpl.
  rewrite Hp. simpl. rewrite Projects_update_eq. simpl. rewrite Hq, Hp.
  by repeat split.
Qed.

(** X19. templates.download returns the templates of the project, throws
    404 'Project not found' when there is no such project, and changes no
    project either way. *)
Theorem download_result pid w :
  checkIfCan ["responses:r"] pid = None →
  next_fault (faults w) = None →
  templates_download pid w =
    (match Projects w !! pid with
     | Some p => Ok (Some (templates p))
     | None => Throw (MeteorError (EStr "404") (Some "Project not found"))
     end, issued ProjectsFindOne w).
Proof.
  intros Hcan Hf. unfold TemplateMethods.templates_download. run.
  rewrite (can_granted _ _ _ Hcan), (Projects_findOne_ok _ _ Hf).
  by destruct (Projects w !! pid).
Qed.

(** X20. On an existing project templates.countWithIntent answers whether
    some template lists the intent among those of its triggers, and
    changes no project. *)
Theorem countWithIntent_result pid intent w p :
  checkIfCan ["nlu-data:r"; "responses:r"; "conversations:r"] pid = None →
  next_fault (faults w) = None →
  Projects w !! pid = Some p →
  ∃ b, templates_countWithIntent pid intent w = (Ok b, issued ProjectsFind w)
       ∧ (b = true ↔ ∃ t, t ∈ templates p ∧ intent ∈ intents t).
Proof.
  intros Hcan Hf Hp.
  unfold TemplateMethods.templates_countWithIntent. run.
  rewrite (can_granted _ _ _ Hcan).
  unfold Projects_find_intent. run. rewrite (call_ok _ _ Hf). simpl.
  rewrite Hp. eexists. split; [reflexivity|].
  rewrite bool_decide_eq_true. unfold elemMatch. simpl.
  destruct (List.find _ (templates p)) as [t|] eqn:Hfind; simpl.
  - apply find_some in Hfind as [Hin Ht]. apply bool_decide_eq_true in Ht.
    split; [|by eexists]. intros _. exists t. split; [|done].
    by apply list_elem_of_In.
  - split; [by intros [? [=]]|]. intros (t & Hin & Ht). exfalso.
    apply list_elem_of_In in Hin.
    apply (find_none _ _ Hfind) in Hin. by apply bool_decide_eq_false in Hin.
Qed.

(** *** Compositions *)

Lemma import_run pid payload N w p :
  checkIfCan ["responses:w"] pid = None →
  faults w = [] →
  Projects w !! pid = Some p →
  payload = inr N ∨ (∃ s, payload = inl s ∧ JSON_parse s = Some N) →
  templates_import pid payload w =
    (Ok tt,
     with_Projects
       (<[pid := Project (filter (λ t, key t ∉ key <$> N) (templates p) ++ N)
                         (Some now)]> (Projects w))
       (issued ProjectsUpdate (issued ProjectsUpdate (issued ProjectsFindOne w)))).
Proof.
  intros Hcan Hq Hp Hpayload.
  assert (Hf : next_fault (faults w) = None) by by rewrite Hq.
  unfold TemplateMethods.templates_import. run.
  rewrite (can_granted _ _ _ Hcan).
  destruct Hpayload as [->|(s & -> & Hs)]; [|rewrite Hs];
    rewrite (Projects_findOne_ok _ _ Hf), Hp; simpl.
  all: rewrite !Projects_update_eq; simpl; rewrite Hq, Hp; simpl.
  all: rewrite !Projects_update_eq; simpl; rewrite Hq, lookup_insert_eq; simpl.
  all: unfold with_Projects; simpl.
  all: by rewrite insert_insert_eq, pull_intersection.
Qed.

(** X22. Inserting a template under a key the project does not have and
    then deleting that key gives the project its old templates back. *)
Theorem insert_then_delete pid item l w p :
  checkIfCan ["responses:w"] pid = None →
  faults w = [] →
  Projects w !! pid = Some p →
  key item ∉ key <$> templates p →
  ∃ w1 w2,
    project_insertTemplate pid item w = (Ok tt, w1)
    ∧ project_deleteTemplate pid (key item) l w1 = (Ok 1%nat, w2)
    ∧ Projects w2 !! pid = Some (Project (templates p) (Some now)).
Proof.
  intros Hcan Hq Hp Hk.
  assert (Hf : next_fault (faults w) = None) by by rewrite Hq.
  assert (Hone : project_insertTemplate pid item w =
    (Ok tt,
     with_Projects
       (<[pid := Project (templates p ++ [item]) (Some now)]> (Projects w))
       (issued ProjectsUpdate (issued ProjectsFindOne w)))).
  { unfold TemplateMethods.project_insertTemplate. run.
    rewrite (can_granted _ _ _ Hcan), (Projects_findOne_ok _ _ Hf), Hp. simpl.
    apply find_has_key_None in Hk. rewrite Hk.
    rewrite Projects_update_eq. simpl. by rewrite Hq, Hp. }
  eexists _, _. split; [exact Hone|].
  unfold TemplateMethods.project_deleteTemplate. run.
  rewrite (can_granted _ _ _ Hcan), Projects_update_eq. simpl.
  rewrite Hq, lookup_insert_eq. simpl.
  unfold sel_position. simpl.
  destruct (index_of (key item) (templates p ++ [item])) as [i|] eqn:Hi.
  - split; [reflexivity|]. simpl. rewrite lookup_insert_eq. do 2 f_equal.
    rewrite filter_app, (filter_drops_all _ [item]), app_nil_r.
    + apply filter_keeps_all. intros t Ht Hin.
      apply list_elem_of_singleton in Hin. apply Hk.
      apply list_elem_of_fmap. by exists t.
    + intros t Ht Hn. apply list_elem_of_singleton in Ht as ->.
      apply Hn. left.
  - exfalso. apply index_of_None in Hi. apply Hi.
    rewrite fmap_app, elem_of_app. right. left.
Qed.

(** X23. On a project without the key project.findTemplate creates the
    template, with one value for the language asked for, and a
    templates.download that follows returns the old templates followed by
    the new one. *)
Theorem findTemplate_then_download pid k l w p :
  checkIfCan ["responses:r"] pid = None →
  faults w = [] →
  Projects w !! pid = Some p →
  k ∉ key <$> templates p →
  ∃ t w1,
    project_findTemplate pid k l w = (Ok t, w1)
    ∧ key t = k
    ∧ values t = [Localized l [Fragment (safeDump_text k)]]
    ∧ templates_download pid w1
      = (Ok (Some (templates p ++ [t])), issued ProjectsFindOne w1).
Proof.
  intros Hcan Hq Hp Hk.
  eexists _, _. split.
  { apply (findTemplate_absent checkIfCan safeDump_text now _ _ _ _ p);
      done. }
  split; [done|]. split; [done|].
  unfold TemplateMethods.templates_download. run.
  rewrite (can_granted _ _ _ Hcan).
  rewrite Projects_findOne_ok by (simpl; by rewrite Hq).
  simpl. by rewrite lookup_insert_eq.
Qed.

(** *** One template per key, one value per language *)

Lemma all_unique_keys_insert ps pid q :
  all_unique_keys ps → unique_keys (templates q) →
  all_unique_keys (<[pid := q]> ps).
Proof.
  intros Hall Hq pid' p'. rewrite lookup_insert.
  case_decide; [by intros [= <-] | apply Hall].
Qed.

Lemma keys_filter_unique (P : template → Prop) `{∀ t, Decision (P t)} ts :
  unique_keys ts → unique_keys (filter P ts).
Proof.
  unfold unique_keys. induction ts as [|t ts IH]; [done|].
  rewrite fmap_cons, NoDup_cons. intros [Hin Hnd].
  rewrite filter_cons. destruct (decide (P t)); [|by apply IH].
  rewrite fmap_cons, NoDup_cons. split; [|by apply IH].
  intros Hk. apply Hin. apply list_elem_of_fmap in Hk as (x & -> & Hx).
  apply list_elem_of_filter in Hx as [_ Hx]. apply list_elem_of_fmap. by exists x.
Qed.

Lemma index_of_key k (ts : list template) (i : nat) :
  index_of k ts = Some i → (key <$> ts) !! i = Some k.
Proof.
  revert i. induction ts as [|t ts IH]; intros i; simpl; [done|].
  destruct (has_key k t) eqn:Hk.
  - intros [= <-]. simpl. f_equal. by apply has_key_true.
  - destruct (index_of k ts) as [j|]; [|done]. intros [= <-]. by apply IH.
Qed.

Lemma keys_set_template k (ts : list template) (i : nat) item :
  index_of k ts = Some i → key item = k →
  key <$> <[i := item]> ts = key <$> ts.
Proof.
  intros Hi Hk. rewrite list_fmap_insert, Hk.
  by apply list_insert_id, index_of_key.
Qed.

Lemma keys_push_value v (i : nat) (ts : list template) :
  key <$> alter (push_value v) i ts = key <$> ts.
Proof.
  revert i. induction ts as [|t ts IH]; intros [|i]; simpl; [done..| |].
  - done.
  - f_equal. apply IH.
Qed.

Lemma keys_push_fresh ts item :
  unique_keys ts → key item ∉ key <$> ts → unique_keys (ts ++ [item]).
Proof.
  unfold unique_keys. intros Hnd Hk. rewrite fmap_app. apply NoDup_app.
  split; [done|]. split; [|apply NoDup_singleton].
  intros x Hx Hx'. apply list_elem_of_singleton in Hx'. by subst.
Qed.

Lemma sel_position_key pid k p pos :
  sel_position (Selector pid (Some k)) p = Some pos →
  ∃ i, pos = Some i ∧ index_of k (templates p) = Some i.
Proof.
  unfold sel_position. simpl.
  destruct (index_of k (templates p)) as [i|]; [|done].
  intros [= <-]. by exists i.
Qed.

Lemma update_unique sel mods w r w' :
  Projects_update sel mods w = (r, w') →
  all_unique_keys (Projects w) →
  (∀ p pos, Projects w !! sel_id sel = Some p →
            sel_position sel p = Some pos →
            unique_keys (templates p) →
            unique_keys (templates (foldl (apply_modifier pos) p mods))) →
  all_unique_keys (Projects w').
Proof.
  rewrite Projects_update_eq. intros Hrun Hall Hmods.
  destruct (next_fault (faults w)); [by injection Hrun as <- <-|].
  destruct (Projects w !! sel_id sel) as [p|] eqn:Hp;
    [|by injection Hrun as <- <-].
  destruct (sel_position sel p) as [pos|] eqn:Hpos;
    [|by injection Hrun as <- <-].
  injection Hrun as <- <-. simpl.
  apply all_unique_keys_insert; [done|]. apply Hmods; [done..|].
  by apply (Hall (sel_id sel)).
Qed.

(** What the keyed findOne can return. *)
Lemma Projects_findOne_key_cases pid k w r w1 :
  Projects_findOne_key pid k w = (r, w1) →
  w1 = issued ProjectsFindOne w
  ∧ ((∃ e, r = Throw e)
     ∨ (r = Ok None ∧ ∀ p, Projects w !! pid = Some p → k ∉ key <$> templates p)
     ∨ ∃ p pre t post,
         Projects w !! pid = Some p
         ∧ first_with_key k (templates p) pre t post
         ∧ r = Ok (Some (Fetched (Some [t])))).
Proof.
  unfold Projects_findOne_key, call. run.
  destruct (next_fault (faults w)); simpl.
  { intros [= <- <-]. split; [done|]. left. by eexists. }
  intros [= <- <-]. split; [done|].
  destruct (Projects w !! pid) as [p|] eqn:Hp; simpl.
  - destruct (existsb (has_key k) (templates p)) eqn:He.
    + apply existsb_has_key in He.
      destruct (first_with_key_of_elem _ _ He) as (pre & t & post & Hfirst).
      right. right. exists p, pre, t, post. split; [done|]. split; [done|].
      unfold elemMatch. by rewrite (first_with_key_find _ _ _ _ _ Hfirst).
    + right. left. split; [done|]. intros q [= <-] Hk.
      apply existsb_has_key in Hk. congruence.
  - right. left. split; [done|]. by intros q [=].
Qed.

Lemma updateTemplate_unique pid k item w r w' :
  key item = k →
  project_updateTemplate pid k item w = (r, w') →
  all_unique_keys (Projects w) → all_unique_keys (Projects w').
Proof.
  intros Hk. unfold TemplateMethods.project_updateTemplate. run.
  destruct (check_can_cases checkIfCan ["responses:w"] pid w) as [->|[e ->]];
    [|by intros [= <- <-]].
  destruct (values item) as [|v0 vs]; [by intros [= <- <-]|].
  destruct (Projects_update _ _ w) as [[n|e] w1] eqn:Hu;
    intros [= <- <-] Hall.
  all: apply (update_unique _ _ _ _ _ Hu Hall).
  all: intros p pos Hp Hpos Hnd; simpl.
  all: apply sel_position_key in Hpos as (i & -> & Hi); simpl.
  all: unfold unique_keys; by rewrite (keys_set_template k).
Qed.

Lemma pull_unique pid sel_k keys w r w' :
  Projects_update (Selector pid sel_k)
    [PullTemplates keys; SetResponsesUpdatedAt now] w = (r, w') →
  all_unique_keys (Projects w) → all_unique_keys (Projects w').
Proof.
  intros Hu Hall. apply (update_unique _ _ _ _ _ Hu Hall).
  intros p pos _ _ Hnd. simpl. by apply keys_filter_unique.
Qed.

Lemma deleteTemplate_unique pid k l w r w' :
  project_deleteTemplate pid k l w = (r, w') →
  all_unique_keys (Projects w) → all_unique_keys (Projects w').
Proof.
  unfold TemplateMethods.project_deleteTemplate. run.
  destruct (check_can_cases checkIfCan ["responses:w"] pid w) as [->|[e ->]];
    [|by intros [= <- <-]].
  destruct (Projects_update _ _ w) as [[n|e] w1] eqn:Hu;
    intros [= <- <-]; by apply (pull_unique _ _ _ _ _ _ Hu).
Qed.

Lemma removeByKey_unique pid arg w r w' :
  templates_removeByKey pid arg w = (r, w') →
  all_unique_keys (Projects w) → all_unique_keys (Projects w').
Proof.
  unfold TemplateMethods.templates_removeByKey. run.
  destruct (check_can_cases checkIfCan ["responses:w"] pid w) as [->|[e ->]];
    [|by intros [= <- <-]].
  destruct (Projects_update _ _ w) as [[n|e] w1] eqn:Hu;
    intros [= <- <-]; by apply (pull_unique _ _ _ _ _ _ Hu).
Qed.

Lemma insertTemplate_unique pid item w r w' :
  project_insertTemplate pid item w = (r, w') →
  all_unique_keys (Projects w) → all_unique_keys (Projects w').
Proof.
  unfold TemplateMethods.project_insertTemplate. run.
  destruct (check_can_cases checkIfCan ["responses:w"] pid w) as [->|[e ->]];
    [|by intros [= <- <-]].
  destruct (Projects_findOne pid w) as [[found|e] w1] eqn:Hfind;
    apply Projects_findOne_cases in Hfind as [-> Hfound];
    [|by intros [= <- <-]].
  destruct Hfound as [[= ->]|[[e [=]]|(p & Hp & [= ->])]];
    [by intros [= <- <-]|].
  simpl. destruct (List.find _ _) eqn:Hfd; [by intros [= <- <-]|].
  apply find_has_key_None in Hfd.
  destruct (Projects_update _ _ _) as [[n|e] w2] eqn:Hu;
    intros [= <- <-] Hall.
  all: apply (update_unique _ _ _ _ _ Hu); [done|].
  all: simpl; intros q pos Hq _ Hnd.
  all: assert (q = p) as -> by congruence.
  all: by apply keys_push_fresh.
Qed.

Lemma findTemplate_unique pid k l w r w' :
  project_findTemplate pid k l w = (r, w') →
  all_unique_keys (Projects w) → all_unique_keys (Projects w').
Proof.
  unfold TemplateMethods.project_findTemplate. run.
  destruct (check_can_cases checkIfCan ["responses:r"] pid w) as [->|[e ->]];
    [|by intros [= <- <-]].
  destruct (Projects_findOne_key pid k w) as [found w1] eqn:Hfind.
  apply Projects_findOne_key_cases in Hfind as [-> Hfound].
  destruct Hfound as [[e ->]|[[-> Hk]|(p & pre & t & post & Hp & Hfirst & ->)]].
  - by intros [= <- <-].
  - destruct (Projects_update _ _ _) as [[n|e] w2] eqn:Hu;
      intros [= <- <-] Hall.
    all: apply (update_unique _ _ _ _ _ Hu); [done|].
    all: simpl; intros q pos Hq _ Hnd.
    all: apply keys_push_fresh; [done|]. all: by apply Hk.
  - simpl. destruct (existsb _ (values t)); simpl; [by intros [= <- <-]|].
    destruct (Projects_update _ _ _) as [[n|e] w2] eqn:Hu;
      intros [= <- <-] Hall.
    all: apply (update_unique _ _ _ _ _ Hu); [done|].
    all: simpl; intros q pos _ Hpos Hnd.
    all: apply sel_position_key in Hpos as (i & -> & Hi); simpl.
    all: unfold unique_keys; by rewrite keys_push_value.
Qed.

Lemma import_unique pid payload w r w' :
  keeps_keys JSON_parse (Import pid payload) →
  templates_import pid payload w = (r, w') →
  all_unique_keys (Projects w) → all_unique_keys (Projects w').
Proof.
  intros Hsafe. unfold TemplateMethods.templates_import. run.
  destruct (check_can_cases checkIfCan ["responses:w"] pid w) as [->|[e ->]];
    [|by intros [= <- <-]].
  destruct payload as [s|N]; simpl in Hsafe;
    [destruct (JSON_parse s) as [N|]; [|by intros [= <- <-]]|].
  all: destruct (Projects_findOne pid w) as [[found|e] w1] eqn:Hfind;
    apply Projects_findOne_cases in Hfind as [-> Hfound];
    [|by intros [= <- <-]].
  all: destruct Hfound as [[= ->]|[[e [=]]|(p & Hp & [= ->])]];
    [by intros [= <- <-]|].
  all: rewrite Projects_update_eq; simpl.
  all: destruct (next_fault (tail (faults w))); [by intros [= <- <-]|].
  all: rewrite Hp; simpl; rewrite Projects_update_eq; simpl.
  all: rewrite lookup_insert_eq; simpl.
  all: destruct (next_fault (tail (tail (faults w))));
    intros [= <- <-] Hall; simpl; rewrite ?insert_insert_eq;
    (apply all_unique_keys_insert; [done|]); simpl.
  1,3: apply keys_filter_unique; by apply (Hall pid).
  all: rewrite pull_intersection; unfold unique_keys.
  all: rewrite fmap_app; apply NoDup_app; split; [|split; [|done]].
  1,3: apply keys_filter_unique; by apply (Hall pid).
  all: intros x Hx; apply list_elem_of_fmap in Hx as (t & -> & Ht).
  all: by apply list_elem_of_filter in Ht as [Ht _].
Qed.

(** X24. Every request of the writing methods keeps the rule of one
    template per key in every project, provided an update keeps the key of
    the template it replaces and an import brings one template per key;
    this holds whether the call returns or throws. *)
Theorem mutation_keeps_unique_keys c w r w' :
  dispatch checkIfCan formatNewlines formatError safeDump_text JSON_parse now c w
    = (r, w') →
  keeps_keys JSON_parse c →
  all_unique_keys (Projects w) →
  all_unique_keys (Projects w').
Proof.
  destruct c as [pid k item|pid k l|pid k l|pid item|pid payload|pid arg];
    simpl; run.
  - destruct (project_updateTemplate pid k item w) as [[n|e] w1] eqn:H;
      intros [= <- <-] Hk; by apply (updateTemplate_unique _ _ _ _ _ _ Hk H).
  - destruct (project_deleteTemplate pid k l w) as [[n|e] w1] eqn:H;
      intros [= <- <-] _; by apply (deleteTemplate_unique _ _ _ _ _ _ H).
  - destruct (project_findTemplate pid k l w) as [[n|e] w1] eqn:H;
      intros [= <- <-] _; by apply (findTemplate_unique _ _ _ _ _ _ H).
  - intros H _. by apply (insertTemplate_unique _ _ _ _ _ H).
  - intros H Hsafe. by apply (import_unique _ _ _ _ _ Hsafe H).
  - intros H _. by apply (removeByKey_unique _ _ _ _ _ H).
Qed.

Lemma all_unique_langs_insert ps pid q :
  all_unique_langs ps → (∀ t, t ∈ templates q → unique_langs t) →
  all_unique_langs (<[pid := q]> ps).
Proof.
  intros Hall Hq pid' p' t. rewrite lookup_insert.
  case_decide; [intros [= <-]; apply Hq | apply Hall].
Qed.

Lemma push_value_unique_langs k l t :
  unique_langs t → ¬ has_lang l t → unique_langs (push_value (newSeq k l) t).
Proof.
  unfold unique_langs, has_lang. simpl. intros Hnd Hl.
  rewrite fmap_app. apply NoDup_app. split; [done|].
  split; [|apply NoDup_singleton].
  intros x Hx Hx'. apply list_elem_of_singleton in Hx'. by subst.
Qed.

(** X25. project.findTemplate keeps the rule of one value per language:
    if it holds for every stored template before the call, it holds for
    every stored template after it and for the template returned, whether
    the call creates the template, adds the language or finds both. *)
Theorem findTemplate_keeps_unique_langs pid k l w r w' :
  project_findTemplate pid k l w = (r, w') →
  all_unique_langs (Projects w) →
  all_unique_langs (Projects w') ∧ ∀ t, r = Ok t → unique_langs t.
Proof.
  unfold TemplateMethods.project_findTemplate. run.
  destruct (check_can_cases checkIfCan ["responses:r"] pid w) as [->|[e ->]];
    [|by intros [= <- <-]].
  destruct (Projects_findOne_key pid k w) as [found w1] eqn:Hfind.
  apply Projects_findOne_key_cases in Hfind as [-> Hfound].
  destruct Hfound as [[e ->]|[[-> Hk]|(p & pre & t & post & Hp & Hfirst & ->)]].
  - by intros [= <- <-].
  - assert (Hnew : unique_langs (Template k [newSeq k l] [])).
    { unfold unique_langs. simpl. apply NoDup_singleton. }
    rewrite Projects_update_eq. simpl.
    destruct (next_fault (tail (faults w))); [by intros [= <- <-]|].
    destruct (Projects w !! pid) as [q|] eqn:Hq; simpl.
    + intros [= <- <-] Hall. split; [|by intros ? [= <-]]. simpl.
      apply all_unique_langs_insert; [done|]. simpl. intros t Ht.
      apply elem_of_app in Ht as [Ht|Ht]; [by apply (Hall pid q)|].
      by apply list_elem_of_singleton in Ht as ->.
    + intros [= <- <-] Hall. split; [done | by intros ? [= <-]].
  - simpl. destruct (existsb _ (values t)) eqn:He; simpl.
    + intros [= <- <-] Hall. split; [done|]. intros ? [= <-].
      apply (Hall pid p); [done|]. destruct Hfirst as (-> & _ & _).
      apply elem_of_app. right. left.
    + assert (Hl : ¬ has_lang l t).
      { intros Hl. apply existsb_lang in Hl. congruence. }
      rewrite Projects_update_eq. simpl.
      destruct (next_fault (tail (faults w))); [by intros [= <- <-]|].
      rewrite Hp. unfold sel_position. simpl.
      rewrite (first_with_key_index _ _ _ _ _ Hfirst). simpl.
      intros [= <- <-] Hall.
      assert (Ht : unique_langs t).
      { apply (Hall pid p); [done|]. destruct Hfirst as (-> & _ & _).
        apply elem_of_app. right. left. }
      split; [|intros ? [= <-]; by apply push_value_unique_langs].
      simpl. apply all_unique_langs_insert; [done|]. simpl.
      destruct Hfirst as (Hts & _ & _). rewrite Hts.
      rewrite <- (Nat.add_0_r (length pre)), alter_app_r. simpl.
      intros t' Ht'. apply elem_of_app in Ht' as [Ht'|Ht'].
      * apply (Hall pid p); [done|]. rewrite Hts. apply elem_of_app. by left.
      * apply elem_of_cons in Ht' as [->|Ht'].
        -- by apply push_value_unique_langs.
        -- apply (Hall pid p); [done|]. rewrite Hts.
           apply elem_of_app. right. by right.
Qed.

End Facts.

(** X21. templates.import is idempotent on the template lists: with the
    store answering, importing the same payload again, at a later reading
    of the clock, leaves the templates of the project as the first import
    left them and moves its timestamp to the later reading; the other
    projects are untouched. *)
Theorem import_twice checkIfCan JSON_parse (now1 now2 : Z) pid payload N w p :
  checkIfCan ["responses:w"] pid = None →
  faults w = [] →
  Projects w !! pid = Some p →
  payload = inr N ∨ (∃ s, payload = inl s ∧ JSON_parse s = Some N) →
  ∃ w1 w2 ts,
    templates_import checkIfCan JSON_parse now1 pid payload w = (Ok tt, w1)
    ∧ Projects w1 !! pid = Some (Project ts (Some now1))
    ∧ templates_import checkIfCan JSON_parse now2 pid payload w1 = (Ok tt, w2)
    ∧ Projects w2 = <[pid := Project ts (Some now2)]> (Projects w1).
Proof.
  intros Hcan Hq Hp Hpayload.
  set (ts := filter (λ t, key t ∉ key <$> N) (templates p) ++ N).
  eexists _, _, ts.
  split; [by apply (import_run checkIfCan JSON_parse now1 _ _ N _ p)|].
  split; [by simpl; rewrite lookup_insert_eq|]. split.
  - apply (import_run checkIfCan JSON_parse now2 _ _ N _
             (Project ts (Some now1))); try done.
    + simpl. by rewrite Hq.
    + simpl. by rewrite lookup_insert_eq.
  - simpl. do 2 f_equal. unfold ts.
    rewrite filter_app, (filter_drops_all _ N), app_nil_r.
    + f_equal. apply filter_keeps_all. intros t Ht.
      by apply list_elem_of_filter in Ht as [Ht _].
    + intros t Ht Hn. apply Hn, list_elem_of_fmap. by exists t.
Qed.

Lemma import_twice_witness :
  ∃ w1 w2 ts,
    templates_import allow parse 1000 "P" (inr [greet_new; ask]) w_P = (Ok tt, w1)
    ∧ Projects w1 !! "P" = Some (Project ts (Some 1000%Z))
    ∧ templates_import allow parse 2000 "P" (inr [greet_new; ask]) w1
      = (Ok tt, w2)
    ∧ Projects w2 = <[ "P" := Project ts (Some 2000%Z)]> (Projects w1).
Proof.
  apply (import_twice allow parse 1000 2000 "P" (inr [greet_new; ask])
           [greet_new; ask] w_P P0); try reflexivity.
  by left.
Defined.

Lemma templates_denied_witness :
  project_updateTemplate deny keep clock "P" "utter_greet" greet_new w_P
    = (Throw forbidden, w_P)
  ∧ project_deleteTemplate deny clock "P" "utter_greet" "en" w_P
    = (Throw forbidden, w_P)
  ∧ project_findTemplate deny dump clock "P" "utter_greet" "en" w_P
    = (Throw forbidden, w_P)
  ∧ project_insertTemplate deny clock "P" greet_new w_P = (Throw forbidden, w_P)
  ∧ templates_download deny "P" w_P = (Throw forbidden, w_P)
  ∧ templates_import deny parse clock "P" (inr [ask]) w_P
    = (Throw forbidden, w_P)
  ∧ templates_removeByKey deny MeteorErrorOf clock "P" (inl "utter_bye") w_P
    = (Throw forbidden, w_P)
  ∧ templates_countWithIntent deny "P" "goodbye" w_P = (Throw forbidden, w_P).
Proof.
  apply (templates_denied deny keep MeteorErrorOf dump parse clock "P"
           forbidden w_P "utter_greet" "en" greet_new (inr [ask])
           (inl "utter_bye") "goodbye").
  reflexivity.
Defined.

Lemma templates_first_call_fails_witness :
  project_updateTemplate allow keep clock "P" "utter_greet" greet_new w_P_failing
    = (Throw (MeteorErrorOf broken), issued ProjectsUpdate w_P_failing)
  ∧ project_deleteTemplate allow clock "P" "utter_greet" "en" w_P_failing
    = (Throw (MeteorErrorOf broken), issued ProjectsUpdate w_P_failing)
  ∧ project_findTemplate allow dump clock "P" "utter_greet" "en" w_P_failing
    = (Throw (MeteorErrorOf broken), issued ProjectsFindOne w_P_failing)
  ∧ templates_removeByKey allow MeteorErrorOf clock "P" (inl "utter_bye")
      w_P_failing
    = (Throw (MeteorErrorOf broken), issued ProjectsUpdate w_P_failing)
  ∧ project_insertTemplate allow clock "P" greet_new w_P_failing
    = (Throw broken, issued ProjectsFindOne w_P_failing)
  ∧ templates_import allow parse clock "P" (inr [ask]) w_P_failing
    = (Throw broken, issued ProjectsFindOne w_P_failing)
  ∧ templates_download allow "P" w_P_failing
    = (Throw broken, issued ProjectsFindOne w_P_failing)
  ∧ templates_countWithIntent allow "P" "goodbye" w_P_failing
    = (Throw broken, issued ProjectsFind w_P_failing).
Proof.
  apply (templates_first_call_fails allow keep MeteorErrorOf dump parse clock
           "P" broken w_P_failing "utter_greet" "en" greet_new
           (Localized "en" [Fragment "text: Hi there"]) [] [ask]
           (inl "utter_bye") "goodbye"); reflexivity.
Defined.

Lemma updateTemplate_replaces_witness :
  project_updateTemplate allow keep clock "P" "utter_greet" greet_new w_P =
    (Ok 1%nat,
     with_Projects
       (<[ "P" := Project ([bye] ++ greet_new :: []) (Some clock)]> (Projects w_P))
       (issued ProjectsUpdate w_P)).
Proof.
  apply (updateTemplate_replaces allow keep clock "P" "utter_greet" greet_new
           (Localized "en" [Fragment "text: Hi there"]) [] w_P P0
           [bye] greet []); try reflexivity.
  split; [reflexivity|]. split; [|reflexivity].
  constructor; [discriminate | constructor].
Defined.

Lemma updateTemplate_empty_values_witness :
  project_updateTemplate allow keep clock "P" "utter_greet"
    (Template "utter_greet" [] []) w_P = (Throw TypeError, w_P).
Proof.
  apply (updateTemplate_empty_values allow keep clock "P" "utter_greet"
           (Template "utter_greet" [] []) w_P); reflexivity.
Defined.

Lemma unknown_key_effects_witness :
  project_updateTemplate allow keep clock "P" "utter_ask" ask w_P
    = (Ok 0%nat, issued ProjectsUpdate w_P)
  ∧ project_deleteTemplate allow clock "P" "utter_ask" "en" w_P
    = (Ok 0%nat, issued ProjectsUpdate w_P)
  ∧ templates_removeByKey allow MeteorErrorOf clock "P" (inl "utter_ask") w_P =
      (Ok tt,
       with_Projects (<[ "P" := Project (templates P0) (Some clock)]> (Projects w_P))
                     (issued ProjectsUpdate w_P)).
Proof.
  assert (Hk : "utter_ask" ∉ key <$> templates P0).
  { simpl. intros H. apply elem_of_cons in H as [H|H]; [discriminate|].
    apply list_elem_of_singleton in H. discriminate. }
  apply (unknown_key_effects allow keep MeteorErrorOf clock "P" "utter_ask"
           "en" ask (Localized "en" [Fragment "text: Why?"]) [] w_P P0);
    try reflexivity.
  exact Hk.
Defined.

Lemma deleteTemplate_removes_witness :
  project_deleteTemplate allow clock "P" "utter_greet" "en" w_P =
    (Ok 1%nat,
     with_Projects
       (<[ "P" := Project (filter (λ t, key t ≠ "utter_greet") (templates P0))
                          (Some clock)]> (Projects w_P))
       (issued ProjectsUpdate w_P))
  ∧ "utter_greet" ∉ key <$> filter (λ t, key t ≠ "utter_greet") (templates P0).
Proof.
  apply (deleteTemplate_removes allow clock "P" "utter_greet" "en" w_P P0);
    try reflexivity.
  simpl. right. left.
Defined.

Lemma removeByKey_removes_witness :
  ∃ left_over,
    templates_removeByKey allow MeteorErrorOf clock "P"
      (inr ["utter_bye"; "utter_none"]) w_P =
      (Ok tt,
       with_Projects (<[ "P" := Project left_over (Some clock)]> (Projects w_P))
                     (issued ProjectsUpdate w_P))
    ∧ left_over `sublist_of` templates P0
    ∧ ∀ t, t ∈ left_over
           ↔ t ∈ templates P0 ∧ key t ∉ ["utter_bye"; "utter_none"].
Proof.
  apply (removeByKey_removes allow MeteorErrorOf clock "P"
           (inr ["utter_bye"; "utter_none"]) w_P P0); reflexivity.
Defined.

Lemma missing_project_silent_witness :
  project_updateTemplate allow keep clock "nowhere" "utter_greet" greet_new w_P
    = (Ok 0%nat, issued ProjectsUpdate w_P)
  ∧ project_deleteTemplate allow clock "nowhere" "utter_greet" "en" w_P
    = (Ok 0%nat, issued ProjectsUpdate w_P)
  ∧ templates_removeByKey allow MeteorErrorOf clock "nowhere"
      (inl "utter_greet") w_P
    = (Ok tt, issued ProjectsUpdate w_P)
  ∧ project_findTemplate allow dump clock "nowhere" "utter_greet" "en" w_P =
      (Ok (Template "utter_greet" [newSeq dump "utter_greet" "en"] []),
       issued ProjectsUpdate (issued ProjectsFindOne w_P)).
Proof.
  apply (missing_project_silent allow keep MeteorErrorOf dump clock "nowhere"
           "utter_greet" "en" greet_new
           (Localized "en" [Fragment "text: Hi there"]) []
           (inl "utter_greet") w_P); reflexivity.
Defined.

Lemma download_result_witness :
  templates_download allow "P" w_P =
    (match Projects w_P !! "P" with
     | Some p => Ok (Some (templates p))
     | None => Throw (MeteorError (EStr "404") (Some "Project not found"))
     end, issued ProjectsFindOne w_P).
Proof. apply (download_result allow "P" w_P); reflexivity. Defined.

Lemma countWithIntent_result_witness :
  ∃ b, templates_countWithIntent allow "P" "goodbye" w_P
         = (Ok b, issued ProjectsFind w_P)
       ∧ (b = true ↔ ∃ t, t ∈ templates P0 ∧ "goodbye" ∈ intents t).
Proof.
  apply (countWithIntent_result allow "P" "goodbye" w_P P0); reflexivity.
Defined.

Lemma insert_then_delete_witness :
  ∃ w1 w2,
    project_insertTemplate allow clock "P" ask w_P = (Ok tt, w1)
    ∧ project_deleteTemplate allow clock "P" (key ask) "en" w1 = (Ok 1%nat, w2)
    ∧ Projects w2 !! "P" = Some (Project (templates P0) (Some clock)).
Proof.
  apply (insert_then_delete allow clock "P" ask "en" w_P P0); try reflexivity.
  simpl. intros H. apply elem_of_cons in H as [H|H]; [discriminate|].
  apply list_elem_of_singleton in H. discriminate.
Defined.

Lemma findTemplate_then_download_witness :
  ∃ t w1,
    project_findTemplate allow dump clock "P" "utter_ask" "en" w_P = (Ok t, w1)
    ∧ key t = "utter_ask"
    ∧ values t = [Localized "en" [Fragment (dump "utter_ask")]]
    ∧ templates_download allow "P" w1
      = (Ok (Some (templates P0 ++ [t])), issued ProjectsFindOne w1).
Proof.
  apply (findTemplate_then_download allow dump clock "P" "utter_ask" "en"
           w_P P0); try reflexivity.
  simpl. intros H. apply elem_of_cons in H as [H|H]; [discriminate|].
  apply list_elem_of_singleton in H. discriminate.
Defined.

Lemma w_P_unique_keys : all_unique_keys (Projects w_P).
Proof.
  intros pid p Hp. simpl in Hp. apply lookup_singleton_Some in Hp as [_ <-].
  unfold unique_keys. simpl. apply NoDup_cons. split.
  - intros H. apply list_elem_of_singleton in H. discriminate.
  - apply NoDup_singleton.
Qed.

Lemma mutation_keeps_unique_keys_witness :
  all_unique_keys
    (Projects
       (with_Projects
          (<[ "P" := Project [bye; greet_new] (Some clock)]> (Projects w_P))
          (issued ProjectsUpdate w_P))).
Proof.
  apply (mutation_keeps_unique_keys allow keep MeteorErrorOf dump parse clock
           (UpdateTemplate "P" "utter_greet" greet_new) w_P (Ok tt)).
  - reflexivity.
  - reflexivity.
  - exact w_P_unique_keys.
Defined.

Lemma w_P_unique_langs : all_unique_langs (Projects w_P).
Proof.
  intros pid p t Hp Ht. simpl in Hp.
  apply lookup_singleton_Some in Hp as [_ <-].
  simpl in Ht. apply elem_of_cons in Ht as [->|Ht];
    [|apply list_elem_of_singleton in Ht as ->];
    unfold unique_langs; simpl; apply NoDup_singleton.
Qed.

Lemma findTemplate_keeps_unique_langs_witness :
  all_unique_langs
    (Projects (project_findTemplate allow dump clock "P" "utter_greet" "fr" w_P).2)
  ∧ ∀ t, (project_findTemplate allow dump clock "P" "utter_greet" "fr" w_P).1
           = Ok t → unique_langs t.
Proof.
  apply (findTemplate_keeps_unique_langs allow dump clock "P" "utter_greet" "fr"
           w_P).
  - apply surjective_pairing.
  - exact w_P_unique_langs.
Defined.

(** An update whose item carries another key than the one it replaces can
    leave two templates under one key. *)
Example updateTemplate_other_key_duplicates :
  ∃ w', project_updateTemplate allow keep clock "P" "utter_greet"
          (Template "utter_bye" [greet_en] []) w_P = (Ok 1%nat, w')
        ∧ ¬ all_unique_keys (Projects w').
Proof.
  exists (with_Projects
            {[ "P" := Project [bye; Template "utter_bye" [greet_en] []]
                              (Some clock) ]}
            (issued ProjectsUpdate w_P)).
  split; [reflexivity|]. intros H.
  specialize (H "P" _ eq_refl). unfold unique_keys in H. simpl in H.
  apply NoDup_cons in H as [H _]. apply H. left.
Qed.

End TemplateExtras.

(** ** The role names the schema lets through *)

Module UserSchemaExtras.
Import UserSchema UserSchemaProperties.

(** X26. [name.match(/\w+:\w+/)] succeeds exactly on the names in which
    some colon has a word character directly before it and directly after
    it. *)
Theorem name_match_colon_between_word_chars name :
  name_match name = true
  ↔ ∃ pre a b post,
      list_ascii_of_string name = pre ++ a :: ":"%char :: b :: post
      ∧ word_char a = true ∧ word_char b = true.
Proof.
  rewrite name_match_spec. unfold scope_action_shaped, word. split.
  - intros (pre & w1 & w2 & post & Heq & [Hne1 Hw1] & [Hne2 Hw2]).
    destruct w2 as [|b w2']; [done|].
    destruct (exists_last Hne1) as (w1' & a & ->).
    apply Forall_app in Hw1 as [_ Ha]. apply Forall_inv in Ha.
    apply Forall_inv in Hw2.
    exists (pre ++ w1'), a, b, (w2' ++ post).
    split; [|split; [exact Ha | exact Hw2]].
    rewrite Heq. by rewrite <- !app_assoc.
  - intros (pre & a & b & post & Heq & Ha & Hb).
    exists pre, [a], [b], post. split; [done|].
    split; (split; [done | by apply Forall_singleton]).
Qed.

(** X27. A defined role whose name holds no colon is among the allowed
    values of a role entry. *)
Theorem role_without_colon_allowed (roles : list role) name :
  name ∈ role_id <$> roles →
  ":"%char ∉ list_ascii_of_string name →
  name ∈ roles_allowedValues roles.
Proof.
  intros Hin Hcolon. unfold roles_allowedValues.
  apply list_elem_of_In, filter_In. split; [by apply list_elem_of_In|].
  apply negb_true_iff, not_true_iff_false. intros Hm.
  apply name_match_spec in Hm as (pre & w1 & w2 & post & Heq & _ & _).
  apply Hcolon. rewrite Heq, !elem_of_app. right. left. right. left.
Qed.

Lemma role_without_colon_allowed_witness :
  "global-admin" ∈ roles_allowedValues [Role "nlu-data:r"; Role "global-admin"].
Proof.
  apply (role_without_colon_allowed [Role "nlu-data:r"; Role "global-admin"]
           "global-admin").
  - simpl. right. left.
  - simpl. intros H. repeat (apply elem_of_cons in H as [H|H]; [discriminate|]).
    by apply elem_of_nil in H.
Defined.

End UserSchemaExtras.
